(** * PeeR Power Editor: the sectioning and snippet-patch logic of [src/App.tsx]

    JavaScript strings are modelled as lists of UTF-16 code units ([N]).
    The two heading regular expressions of [modularizeText] are run by a
    backtracking matcher for anchored sequences of quantified character
    classes, which explores quantifier counts in the order of the ECMAScript
    matcher (greedy: most first, lazy: fewest first). *)

From Stdlib Require Import String List Arith NArith ZArith Bool Lia Ascii.
From Stdlib Require Import Numbers.DecimalString Numbers.DecimalNat FinFun.
Import ListNotations.
Open Scope list_scope.

(** [String] is imported for its literals only; lengths are list lengths. *)
Abbreviation length := List.length.

(** ** JavaScript strings *)

Definition char := N.
Definition jstr := list char.

(** Literal helper: an ASCII Rocq string as a JS string. *)
Definition str (s : String.string) : jstr :=
  map N_of_ascii (String.list_ascii_of_string s).

Definition LF : char := 10%N.
Definition CR : char := 13%N.

Definition jstr_eqb (a b : jstr) : bool :=
  if list_eq_dec N.eq_dec a b then true else false.

(** [\s] of ECMAScript regular expressions, and the set stripped by
    [String.prototype.trim]: WhiteSpace plus LineTerminator. *)
Definition is_ws (c : char) : bool :=
  N.eqb c 9 || N.eqb c 10 || N.eqb c 11 || N.eqb c 12 || N.eqb c 13
  || N.eqb c 32 || N.eqb c 160 || N.eqb c 5760
  || (N.leb 8192 c && N.leb c 8202)
  || N.eqb c 8232 || N.eqb c 8233 || N.eqb c 8239 || N.eqb c 8287
  || N.eqb c 12288 || N.eqb c 65279.

Definition is_line_terminator (c : char) : bool :=
  N.eqb c 10 || N.eqb c 13 || N.eqb c 8232 || N.eqb c 8233.

(** [.] (no [s] flag): any code unit but a line terminator. *)
Definition is_dot (c : char) : bool := negb (is_line_terminator c).

Definition is_hash (c : char) : bool := N.eqb c 35.

(** [[A-Z\s]] *)
Definition is_upper_or_ws (c : char) : bool :=
  (N.leb 65 c && N.leb c 90) || is_ws c.

(** [String.prototype.trim] *)
Fixpoint trim_start (s : jstr) : jstr :=
  match s with
  | [] => []
  | c :: s' => if is_ws c then trim_start s' else s
  end.

Definition trim_end (s : jstr) : jstr := rev (trim_start (rev s)).

Definition trim (s : jstr) : jstr := trim_end (trim_start s).

(** [Array.prototype.join] *)
Fixpoint join (sep : jstr) (l : list jstr) : jstr :=
  match l with
  | [] => []
  | [x] => x
  | x :: l' => x ++ sep ++ join sep l'
  end.

(** [text.split(/\r?\n/)]: at each position the separator matches either
    CR LF or a single LF; everything else belongs to the current piece. *)
Fixpoint split_lines_aux (cur : jstr) (s : jstr) : list jstr :=
  match s with
  | [] => [rev cur]
  | c :: s' =>
      if N.eqb c CR then
        match s' with
        | d :: s'' =>
            if N.eqb d LF then rev cur :: split_lines_aux [] s''
            else split_lines_aux (c :: cur) s'
        | [] => split_lines_aux (c :: cur) s'
        end
      else if N.eqb c LF then rev cur :: split_lines_aux [] s'
      else split_lines_aux (c :: cur) s'
  end.

Definition split_lines (s : jstr) : list jstr := split_lines_aux [] s.

(** [String.prototype.indexOf] from position 0 and [includes]. *)
Fixpoint prefixb (p s : jstr) : bool :=
  match p, s with
  | [], _ => true
  | c :: p', d :: s' => N.eqb c d && prefixb p' s'
  | _ :: _, [] => false
  end.

Fixpoint index_of (s pat : jstr) : option nat :=
  if prefixb pat s then Some 0
  else match s with
       | [] => None
       | _ :: s' => option_map S (index_of s' pat)
       end.

Definition includes (s pat : jstr) : bool :=
  match index_of s pat with Some _ => true | None => false end.

(** GetSubstitution with no capture groups and no named groups: [$$],
    [$&], [$`] and [$'] are replaced; any other [$] is kept, and so is the
    character after it ([$1] .. [$99] and [$<] stay literal without
    captures). *)
Fixpoint get_substitution (matched s : jstr) (pos : nat) (rep : jstr) : jstr :=
  match rep with
  | [] => []
  | c :: rest =>
      if N.eqb c 36 then
        match rest with
        | [] => [c]
        | d :: rest' =>
            if N.eqb d 36 then [36%N] ++ get_substitution matched s pos rest'
            else if N.eqb d 38 then matched ++ get_substitution matched s pos rest'
            else if N.eqb d 96 then firstn pos s ++ get_substitution matched s pos rest'
            else if N.eqb d 39 then
              skipn (pos + length matched) s ++ get_substitution matched s pos rest'
            else c :: get_substitution matched s pos rest
        end
      else c :: get_substitution matched s pos rest
  end.

(** [s.replace(searchString, replaceValue)] with a string pattern. *)
Definition js_replace (s pat rep : jstr) : jstr :=
  match index_of s pat with
  | None => s
  | Some pos =>
      firstn pos s ++ get_substitution pat s pos rep ++ skipn (pos + length pat) s
  end.

(** [String.prototype.substring] on non-negative offsets: both arguments
    clamped to the length, then swapped if in the wrong order. *)
Definition js_substring (s : jstr) (start end_ : nat) : jstr :=
  let len := length s in
  let a := Nat.min start len in
  let b := Nat.min end_ len in
  let from := Nat.min a b in
  let to_ := Nat.max a b in
  firstn (to_ - from) (skipn from s).

(** [s.substring(start)] *)
Definition js_substring_from (s : jstr) (start : nat) : jstr :=
  js_substring s start (length s).

(** The truthiness of a string in [a || b]. *)
Definition js_or (a b : jstr) : jstr :=
  match a with [] => b | _ :: _ => a end.

(** ** Anchored regular expressions [^ a1 a2 ... an $] over character classes *)

Record atom := mk_atom { cls : char -> bool; min_count : nat; greedy : bool }.

Fixpoint class_prefix (p : char -> bool) (s : jstr) : nat :=
  match s with
  | [] => 0
  | c :: s' => if p c then S (class_prefix p s') else 0
  end.

(** The counts an unbounded quantifier tries, in backtracking order. *)
Definition candidates (a : atom) (s : jstr) : list nat :=
  let up := seq (min_count a) (S (class_prefix (cls a) s) - min_count a) in
  if greedy a then rev up else up.

Fixpoint first_some {A B : Type} (f : A -> option B) (l : list A) : option B :=
  match l with
  | [] => None
  | x :: l' => match f x with Some y => Some y | None => first_some f l' end
  end.

(** The list of segments consumed by each atom in the first match. *)
Fixpoint match_atoms (atoms : list atom) (s : jstr) : option (list jstr) :=
  match atoms with
  | [] => match s with [] => Some [] | _ :: _ => None end
  | a :: rest =>
      first_some
        (fun k => option_map (cons (firstn k s)) (match_atoms rest (skipn k s)))
        (candidates a s)
  end.

Definition star (p : char -> bool) : atom := mk_atom p 0 true.

(** [/^\s*(#+)\s*(.+?)\s*$/] *)
Definition regexA : list atom :=
  [star is_ws; mk_atom is_hash 1 true; star is_ws; mk_atom is_dot 1 false; star is_ws].

(** [/^\s*([A-Z\s]{4,})\s*$/] *)
Definition regexB : list atom :=
  [star is_ws; mk_atom is_upper_or_ws 4 true; star is_ws].

(** [line.match(A) || line.match(B)], then [headerMatch[2] || headerMatch[1]]
    (group 2 of the second regex is undefined). *)
Definition header_of (line : jstr) : option jstr :=
  match match_atoms regexA line with
  | Some segs => Some (js_or (nth 3 segs []) (nth 1 segs []))
  | None =>
      match match_atoms regexB line with
      | Some segs => Some (nth 1 segs [])
      | None => None
      end
  end.

(** ** The data model of [src/types.ts] *)

Record PaperSection := mk_section { id : jstr; title : jstr; content : jstr }.

Inductive IssueType := Warning | Error | Info | Success.

Record AnalysisIssue := mk_issue {
  issue_id : jstr;
  issue_type : IssueType;
  issue_title : jstr;
  description : jstr;
  suggestion : option jstr;
  replacement : option jstr;
  snippet : option jstr;
  location : option jstr
}.

Record CitationPlacement := mk_placement {
  cp_snippet : jstr; explanation : jstr; sectionId : jstr
}.

Record RelatedPaper := mk_paper {
  paper_id : jstr; paper_title : jstr; authors : jstr; year : jstr;
  relevance : jstr; fullReference : jstr; citationMarker : jstr;
  suggestedPlacements : option (list CitationPlacement)
}.

Record PaperStats := mk_stats {
  wordCount : Z; aiProbabilityScore : Z; readabilityScore : Z
}.

Record AnalysisResult := mk_result {
  stats : PaperStats;
  issues : list AnalysisIssue;
  generalFeedback : jstr;
  discovery : option (list RelatedPaper);
  loading : bool
}.

(** ** [INITIAL_SECTIONS] *)

Definition INITIAL_SECTIONS : list PaperSection := [
  mk_section (str "abstract") (str "Abstract") (str "Artificial Intelligence (AI) has rapidly evolved, becoming a tapestry of innovation in various fields. It is paramount to underscore the significance of Large Language Models (LLMs) in this landscape.");
  mk_section (str "intro") (str "Introduction") (str "The rapid proliferation of digital technologies has ushered in a new era of information dissemination. It is important to note that the data landscape is shifting.");
  mk_section (str "methods") (str "Methods") (str "We utilize a novel framework to assess the performance of transformers in zero-shot environments.");
  mk_section (str "refs") (str "References") []
].

(** ** [modularizeText] *)

Definition nat_to_jstr (n : nat) : jstr :=
  str (NilZero.string_of_uint (Nat.to_uint n)).

Section Modularize.

(** [Date.now()] as rendered in the identifier of the section emitted with
    ordinal [n]. *)
Variable clock : nat -> jstr.

Definition section_id (n : nat) : jstr :=
  str "sec-" ++ nat_to_jstr n ++ str "-" ++ clock n.

(** The local variables of [modularizeText] threaded through [forEach]. *)
Record LoopState := mk_loop {
  sections : list PaperSection;
  currentHeader : jstr;
  currentContent : list jstr;
  sectionCount : nat
}.

Definition loop_init : LoopState := mk_loop [] [] [] 0.

(** [if (currentContent.length > 0 || currentHeader) sections.push(...)]
    with the default title given for [currentHeader || ...]. *)
Definition flush (st : LoopState) (dflt : jstr) : list PaperSection * nat :=
  if Nat.ltb 0 (length (currentContent st))
     || negb (jstr_eqb (currentHeader st) []) then
    (sections st ++
       [mk_section (section_id (sectionCount st))
          (js_or (currentHeader st) dflt)
          (trim (join [LF] (currentContent st)))],
     S (sectionCount st))
  else (sections st, sectionCount st).

(** The body of [lines.forEach((line) => ...)]. *)
Definition step (st : LoopState) (line : jstr) : LoopState :=
  match header_of line with
  | Some h =>
      let '(secs, n) := flush st (str "Front Matter") in
      mk_loop secs h [] n
  | None =>
      mk_loop (sections st) (currentHeader st) (currentContent st ++ [line])
        (sectionCount st)
  end.

Definition modularize_sections (text : jstr) : list PaperSection :=
  fst (flush (fold_left step (split_lines text) loop_init) (str "Introduction")).

Definition modularizeText (text : jstr) : list PaperSection :=
  let secs := modularize_sections text in
  if Nat.eqb (length secs) 0 then INITIAL_SECTIONS else secs.

End Modularize.

(** ** The document state of [App] and its handlers *)

Record Selection := mk_selection {
  sel_text : jstr; sel_start : nat; sel_end : nat; sel_sectionId : option jstr
}.

(** The [useState] cells the handlers below read or write. *)
Record AppState := mk_app {
  app_sections : list PaperSection;
  activeSectionId : jstr;
  isFullDocMode : bool;
  analysisResult : option AnalysisResult;
  previewingIssue : option AnalysisIssue;
  selection : option Selection;
  showMicroEditTooltip : bool
}.

(** [sections.map(s => `# ${s.title}\n\n${s.content}`).join('\n\n')] *)
Definition fullText (secs : list PaperSection) : jstr :=
  join [LF; LF] (map (fun s => str "# " ++ title s ++ [LF; LF] ++ content s) secs).

(** The offset splice written twice in [updateDocumentAtSelection]:
    [body.substring(0, start) + newSegment + body.substring(end)]. *)
Definition splice_at (body : jstr) (start end_ : nat) (newSegment : jstr) : jstr :=
  js_substring body 0 start ++ newSegment ++ js_substring_from body end_.

Definition set_sections (secs : list PaperSection) (st : AppState) : AppState :=
  mk_app secs (activeSectionId st) (isFullDocMode st) (analysisResult st)
    (previewingIssue st) (selection st) (showMicroEditTooltip st).

Definition with_content (s : PaperSection) (c : jstr) : PaperSection :=
  mk_section (id s) (title s) c.

(** [!x] on an optional string: [undefined] and [""] are falsy. *)
Definition falsy (o : option jstr) : bool :=
  match o with Some (_ :: _) => false | _ => true end.

Section Handlers.

Variable clock : nat -> jstr.

(** The section branch of [updateDocumentAtSelection]. *)
Definition splice_in_section (targetId : jstr) (sel : Selection) (newSegment : jstr)
    (secs : list PaperSection) : list PaperSection :=
  map (fun s => if jstr_eqb (id s) targetId
                then with_content s (splice_at (content s) (sel_start sel) (sel_end sel) newSegment)
                else s) secs.

Definition updateDocumentAtSelection (newSegment : jstr) (skipSelectionReset : bool)
    (st : AppState) : AppState :=
  match selection st with
  | None => st
  | Some sel =>
      let secs :=
        if isFullDocMode st && falsy (sel_sectionId sel) then
          modularizeText clock
            (splice_at (fullText (app_sections st)) (sel_start sel) (sel_end sel) newSegment)
        else
          let targetId :=
            match sel_sectionId sel with
            | Some ((_ :: _) as i) => i
            | _ => activeSectionId st
            end in
          splice_in_section targetId sel newSegment (app_sections st) in
      let st1 := set_sections secs st in
      if skipSelectionReset then st1
      else mk_app (app_sections st1) (activeSectionId st1) (isFullDocMode st1)
             (analysisResult st1) (previewingIssue st1) None false
  end.

End Handlers.

(** The [setSections] update of [handleConfirmFix]. *)
Definition apply_fix_to_sections (snip rep : jstr) (secs : list PaperSection)
    : list PaperSection :=
  map (fun s => if includes (content s) snip
                then with_content s (js_replace (content s) snip rep)
                else s) secs.

Definition remove_issue (iid : jstr) (ar : AnalysisResult) : AnalysisResult :=
  mk_result (stats ar)
    (filter (fun i => negb (jstr_eqb (issue_id i) iid)) (issues ar))
    (generalFeedback ar) (discovery ar) (loading ar).

Definition handleConfirmFix (issue : AnalysisIssue) (st : AppState) : AppState :=
  if falsy (snippet issue) || falsy (replacement issue) then st
  else
    let snip := match snippet issue with Some x => x | None => [] end in
    let rep := match replacement issue with Some x => x | None => [] end in
    mk_app (apply_fix_to_sections snip rep (app_sections st))
      (activeSectionId st) (isFullDocMode st)
      (option_map (remove_issue (issue_id issue)) (analysisResult st))
      None (selection st) (showMicroEditTooltip st).

(** ** More of [App]: the active section, selection, import, references,
    previews and the highlight backdrop *)

(** [sections.find(s => s.id === activeSectionId) || sections[0]];
    [None] is [undefined] (an empty section list). *)
Definition activeSection (st : AppState) : option PaperSection :=
  match find (fun s => jstr_eqb (id s) (activeSectionId st)) (app_sections st) with
  | Some s => Some s
  | None => hd_error (app_sections st)
  end.

(** [prev.map(s => s.id === activeSectionId ? { ...s, content: value } : s)],
    the update of the single-section textarea's [onChange], of
    [handleHumanize] and of the section branch of [handleAnonymize]. *)
Definition set_active_content (value : jstr) (st : AppState) : AppState :=
  set_sections
    (map (fun s => if jstr_eqb (id s) (activeSectionId st) then with_content s value else s)
       (app_sections st)) st.

(** The Eraser button: [setSections(INITIAL_SECTIONS)]. *)
Definition resetSections (st : AppState) : AppState :=
  set_sections INITIAL_SECTIONS st.

(** The Full Document button: [setIsFullDocMode(!isFullDocMode)]. *)
Definition toggleFullDocMode (st : AppState) : AppState :=
  mk_app (app_sections st) (activeSectionId st) (negb (isFullDocMode st))
    (analysisResult st) (previewingIssue st) (selection st) (showMicroEditTooltip st).

Definition set_tooltip (b : bool) (st : AppState) : AppState :=
  mk_app (app_sections st) (activeSectionId st) (isFullDocMode st)
    (analysisResult st) (previewingIssue st) (selection st) b.

(** [handleSelect(e, sectionId)] with [start = textarea.selectionStart] and
    [end_ = textarea.selectionEnd]; [None] is the [TypeError] of
    [activeSection.content] when there is no section. *)
Definition handleSelect (start end_ : nat) (sectionId : option jstr) (st : AppState)
    : option AppState :=
  if negb (Nat.eqb start end_) then
    let targetContent :=
      match sectionId with
      | Some ((_ :: _) as sid) =>
          Some (match find (fun s => jstr_eqb (id s) sid) (app_sections st) with
                | Some s => js_or (content s) []
                | None => []
                end)
      | _ =>
          if isFullDocMode st then Some (fullText (app_sections st))
          else option_map content (activeSection st)
      end in
    match targetContent with
    | None => None
    | Some tc =>
        let selectedText := js_substring tc start end_ in
        if Nat.ltb 1 (length (trim selectedText)) then
          Some (mk_app (app_sections st) (activeSectionId st) (isFullDocMode st)
                  (analysisResult st) (previewingIssue st)
                  (Some (mk_selection selectedText start end_ sectionId)) true)
        else Some (set_tooltip false st)
    end
  else if showMicroEditTooltip st then Some (set_tooltip false st)
  else Some st.

(** The import dialog's two [useState] cells. *)
Record ImportDialog := mk_dialog { isImportModalOpen : bool; importText : jstr }.

(** [String.prototype.toLowerCase] (full Unicode case mapping) is taken as a
    parameter. *)
Section References.

Variable to_lower : jstr -> jstr.

(** [Array.prototype.findIndex]; [None] is [-1]. *)
Fixpoint find_index {A : Type} (p : A -> bool) (l : list A) : option nat :=
  match l with
  | [] => None
  | x :: l' => if p x then Some 0 else option_map S (find_index p l')
  end.

(** [a[i] = x] for an index inside the array. *)
Fixpoint list_set {A : Type} (l : list A) (i : nat) (x : A) : list A :=
  match l, i with
  | [], _ => []
  | _ :: l', 0 => x :: l'
  | y :: l', S i' => y :: list_set l' i' x
  end.

(** The [setSections] updater of [handleAddReference(fullRef)]. *)
Definition add_reference (fullRef : jstr) (prev : list PaperSection) : list PaperSection :=
  let '(newState, refsIdx) :=
    match find_index (fun s => includes (to_lower (title s)) (str "reference")) prev with
    | Some i => (prev, i)
    | None => (prev ++ [mk_section (str "refs-auto") (str "References") []], length prev)
    end in
  let s := nth refsIdx newState (mk_section [] [] []) in
  let separator := if falsy (Some (trim (content s))) then [] else [LF] in
  list_set newState refsIdx (with_content s (trim (content s) ++ separator ++ fullRef)).

Definition handleAddReference (fullRef : jstr) (st : AppState) : AppState :=
  set_sections (add_reference fullRef (app_sections st)) st.

End References.

Section MoreHandlers.

Variable clock : nat -> jstr.

(** [handleImport]; [None] is the [TypeError] of [newSections[0].id] on an
    empty list. *)
Definition handleImport (dlg : ImportDialog) (st : AppState)
    : option (AppState * ImportDialog) :=
  if falsy (Some (trim (importText dlg))) then Some (st, dlg)
  else
    let newSections := modularizeText clock (importText dlg) in
    match newSections with
    | [] => None
    | s0 :: _ =>
        Some (mk_app newSections (id s0) (isFullDocMode st) (analysisResult st)
                (previewingIssue st) (selection st) (showMicroEditTooltip st),
              mk_dialog false [])
    end.

(** [handleCiteAtSelection(marker)]; the flag is the [alert]. *)
Definition handleCiteAtSelection (marker : jstr) (st : AppState) : AppState * bool :=
  match selection st with
  | None => (st, true)
  | Some sel =>
      (updateDocumentAtSelection clock (sel_text sel ++ str " " ++ marker) true st, false)
  end.

(** [handleAnonymize] once [anonymizeContent] has answered [newText]. *)
Definition handleAnonymize (newText : jstr) (st : AppState) : AppState :=
  if isFullDocMode st then set_sections (modularizeText clock newText) st
  else set_active_content newText st.

End MoreHandlers.

(** [handlePreviewFix(issue)] *)
Definition handlePreviewFix (issue : AnalysisIssue) (st : AppState) : AppState :=
  match snippet issue with
  | Some ((_ :: _) as sn) =>
      match index_of (fullText (app_sections st)) sn with
      | None => st
      | Some _ =>
          mk_app (app_sections st) (activeSectionId st) (isFullDocMode st)
            (analysisResult st) (Some issue) (selection st) (showMicroEditTooltip st)
      end
  | _ => st
  end.

(** The text of the highlight backdrop of [renderHighlights]: the plain
    content, or the three pieces around the [mark]. *)
Inductive Backdrop :=
| Plain (c : jstr)
| Marked (before mark after : jstr).

Definition highlight (activeContent : jstr) (issue : option AnalysisIssue) : Backdrop :=
  match issue with
  | Some i =>
      match snippet i with
      | Some ((_ :: _) as sn) =>
          if includes activeContent sn then
            (* [includes] held, so [indexOf] finds the snippet *)
            let pos := match index_of activeContent sn with Some p => p | None => 0 end in
            Marked (js_substring activeContent 0 pos)
              (js_substring activeContent pos (pos + length sn))
              (js_substring_from activeContent (pos + length sn))
          else Plain activeContent
      | _ => Plain activeContent
      end
  | None => Plain activeContent
  end.

(** [renderHighlights()]; [None] is the [TypeError] of
    [activeSection.content] when there is no section. *)
Definition renderHighlights (st : AppState) : option Backdrop :=
  let activeContent :=
    if isFullDocMode st then Some (fullText (app_sections st))
    else option_map content (activeSection st) in
  option_map (fun c => highlight c (previewingIssue st)) activeContent.

(** ** Auxiliary definitions of the proofs *)

Definition sample_issue (snip rep : option jstr) : AnalysisIssue :=
  mk_issue (str "i1") Warning (str "Wordy") (str "Too wordy.") None rep snip None.

Definition sample_result (iss : list AnalysisIssue) : AnalysisResult :=
  mk_result (mk_stats 0%Z 0%Z 0%Z) iss [] None false.

(** The state of the C3 counterexample: one section without the snippet,
    and the issue pending. *)
Definition absent_issue : AnalysisIssue :=
  sample_issue (Some (str "zebra")) (Some (str "horse")).

Definition absent_state : AppState :=
  mk_app [mk_section (str "a") (str "A") (str "The cat sat.");
          mk_section (str "b") (str "B") (str "The dog ran.")] (str "a") false
    (Some (sample_result [absent_issue])) (Some absent_issue) None false.

Definition twice_issue : AnalysisIssue :=
  sample_issue (Some (str "cat")) (Some (str "dog")).

Definition twice_state : AppState :=
  mk_app [mk_section (str "a") (str "A") (str "The cat sat.");
          mk_section (str "b") (str "B") (str "A cat ran.")] (str "a") false
    (Some (sample_result [twice_issue])) (Some twice_issue) None false.

Definition dollar_issue : AnalysisIssue :=
  sample_issue (Some (str "5")) (Some (str "$$5")).

Definition dollar_state : AppState :=
  mk_app [mk_section (str "a") (str "A") (str "It cost 5.")] (str "a") false
    (Some (sample_result [dollar_issue])) (Some dollar_issue) None false.

(** A decomposition of [s] into one segment per atom, each segment made of
    characters of its class and at least as long as the atom's minimum. *)
Fixpoint decomp (atoms : list atom) (segs : list jstr) (s : jstr) : Prop :=
  match atoms, segs with
  | [], [] => s = []
  | a :: atoms', g :: segs' =>
      exists rest, s = g ++ rest /\ min_count a <= length g
                   /\ Forall (fun c => cls a c = true) g /\ decomp atoms' segs' rest
  | _, _ => False
  end.

Definition all_ws (s : jstr) : Prop := Forall (fun c => is_ws c = true) s.

(** Shape (a), in words: optional whitespace, one or more [#], optional
    whitespace, a non-empty run of characters none of which is a line
    terminator, optional whitespace. *)
Definition heading_a_shape (line : jstr) : Prop :=
  exists lead hashes gap text trail,
    line = lead ++ hashes ++ gap ++ text ++ trail
    /\ all_ws lead /\ hashes <> [] /\ Forall (fun c => is_hash c = true) hashes
    /\ all_ws gap /\ text <> [] /\ Forall (fun c => is_line_terminator c = false) text
    /\ all_ws trail.

(** Shape (b), in words: at least four characters, all of them ASCII
    uppercase letters or whitespace. *)
Definition heading_b_shape (line : jstr) : Prop :=
  4 <= length line /\ Forall (fun c => is_upper_or_ws c = true) line.

(** The input lines grouped as [modularizeText] consumes them: the lines
    before the first heading, then each heading's title with the lines up to
    the next heading. *)
Fixpoint groups (lines : list jstr) : list jstr * list (jstr * list jstr) :=
  match lines with
  | [] => ([], [])
  | l :: ls =>
      let '(lead, gs) := groups ls in
      match header_of l with
      | Some h => ([], (h, lead) :: gs)
      | None => (l :: lead, gs)
      end
  end.

Definition tc (s : PaperSection) : jstr * jstr := (title s, content s).

Definition block (hl : jstr * list jstr) : jstr * jstr :=
  (fst hl, trim (join [LF] (snd hl))).

(** The section still open in a loop state, once the lines [lead] before the
    next heading are added to it. *)
Definition pending (hdr : jstr) (cur lead : list jstr) (gs : list (jstr * list jstr))
    : list (jstr * jstr) :=
  if Nat.ltb 0 (length (cur ++ lead)) || negb (jstr_eqb hdr []) then
    [(js_or hdr (match gs with [] => str "Introduction" | _ => str "Front Matter" end),
      trim (join [LF] (cur ++ lead)))]
  else [].

(** The titles of the headings met in [lines], in order. *)
Definition heading_titles (lines : list jstr) : list jstr :=
  flat_map (fun l => match header_of l with Some h => [h] | None => [] end) lines.

(** The default title of the section holding the lines before the first
    heading, when the input starts with a content line. *)
Definition leading_title (lines : list jstr) : list jstr :=
  match lines with
  | l :: _ =>
      match header_of l with
      | Some _ => []
      | None =>
          [match heading_titles lines with
           | [] => str "Introduction"
           | _ :: _ => str "Front Matter"
           end]
      end
  | [] => []
  end.

(** Whether a string ends with a carriage return. *)
Definition ends_cr (s : jstr) : bool :=
  match rev s with c :: _ => N.eqb c CR | [] => false end.

(** The lines of [join('\n')] after [trimStart]: leading blank lines go, and the
    first line left is trimmed at its start. *)
Fixpoint ltrim_lines (L : list jstr) : list jstr :=
  match L with
  | [] => []
  | [l] => [trim_start l]
  | l :: L' =>
      match trim_start l with
      | [] => ltrim_lines L'
      | t => t :: L'
      end
  end.

Definition rtrim_lines (L : list jstr) : list jstr :=
  rev (map (@rev char) (ltrim_lines (rev (map (@rev char) L)))).

(** A line that stays a content line after splitting: no line feed, no
    carriage return at its end, not a heading. *)
Definition line_ok (l : jstr) : Prop :=
  ~ In LF l /\ ends_cr l = false /\ header_of l = None.

(** A title that [# title] gives back as it is: non-empty, no line
    terminator, and, unless it is a single character, neither starting nor
    ending with whitespace. *)
Definition valid_title (T : jstr) : Prop :=
  T <> [] /\ Forall (fun c => is_dot c = true) T
  /\ (length T = 1 \/ (is_ws (hd 0%N T) = false /\ is_ws (last T 0%N) = false)).

(** A section whose title is valid and whose content is
    [trim(lines.join('\n'))] for content lines. *)
Definition good_section (p : jstr * jstr) : Prop :=
  valid_title (fst p) /\ exists L, Forall line_ok L /\ snd p = trim (join [LF] L).

(** One block of [fullText]. *)
Definition ser (p : jstr * jstr) : jstr := str "# " ++ fst p ++ [LF; LF] ++ snd p.

Definition good2 (p : jstr * jstr) : Prop :=
  valid_title (fst p)
  /\ exists L, L <> [] /\ Forall line_ok L /\ snd p = join [LF] L /\ trim (snd p) = snd p.

Fixpoint ser_lines (ps : list (jstr * jstr)) : list jstr :=
  match ps with
  | [] => []
  | [p] => (str "# " ++ fst p) :: [] :: split_lines (snd p)
  | p :: ps' => ((str "# " ++ fst p) :: [] :: split_lines (snd p)) ++ [] :: ser_lines ps'
  end.

Fixpoint exp_groups (ps : list (jstr * jstr)) : list (jstr * list jstr) :=
  match ps with
  | [] => []
  | [p] => [(fst p, [] :: split_lines (snd p))]
  | p :: ps' => (fst p, [] :: split_lines (snd p) ++ [[]]) :: exp_groups ps'
  end.

(** The text of the counterexample to C8: a content line that ends with a
    lone carriage return, before a CR LF line break. *)
Definition lone_cr_text : jstr :=
  str "# A" ++ [LF] ++ str "x" ++ [CR; CR; LF] ++ str "y".

(** The example document of the specification. *)
Definition abstract_methods_text : jstr :=
  str "# Abstract" ++ [LF; LF] ++ str "Hello world." ++ [LF] ++ str "# Methods" ++ [LF]
  ++ str "We did X.".

Definition is_digit (c : char) : bool := N.leb 48 c && N.leb c 57.

Definition ids_inv (clock : nat -> jstr) (st : LoopState) : Prop :=
  map id (sections st) = map (section_id clock) (seq 0 (sectionCount st)).

Definition full_sel_state : AppState :=
  mk_app INITIAL_SECTIONS (str "abstract") true None None
    (Some (mk_selection (str "Abstract") 2 10 None)) true.

Definition nonws_count (s : jstr) : nat := length (filter (fun c => negb (is_ws c)) s).

Definition select_state : AppState :=
  mk_app INITIAL_SECTIONS (str "abstract") false None None None false.

Definition cite_state : AppState :=
  mk_app INITIAL_SECTIONS (str "abstract") true None None None false.

Definition backdrop_text (b : Backdrop) : jstr :=
  match b with Plain c => c | Marked before mark after => before ++ mark ++ after end.

Definition preview_issue : AnalysisIssue :=
  mk_issue (str "i1") Warning (str "t") (str "d") None (Some (str "new"))
    (Some (str "novel framework")) None.

Definition preview_state : AppState :=
  mk_app INITIAL_SECTIONS (str "abstract") true None None None false.

Definition no_section : PaperSection := mk_section [] [] [].

Definition reference_title (to_lower : jstr -> jstr) (s : PaperSection) : bool :=
  includes (to_lower (title s)) (str "reference").

(** [toLowerCase] on ASCII letters, for concrete runs. *)
Definition ascii_lower (s : jstr) : jstr :=
  map (fun c => if N.leb 65 c && N.leb c 90 then (c + 32)%N else c) s.

Definition refs_state : AppState :=
  mk_app INITIAL_SECTIONS (str "abstract") false None None None false.

Definition norefs_state : AppState :=
  mk_app (firstn 3 INITIAL_SECTIONS) (str "abstract") false None None None false.

Definition stale_state : AppState :=
  mk_app INITIAL_SECTIONS (section_id (fun _ => []) 0) false None None None false.

(** * Properties *)

(** ** Offset splices *)

Lemma js_substring_prefix (s : jstr) (n : nat) :
  n <= length s -> js_substring s 0 n = firstn n s.
Proof.
  intros H. unfold js_substring. simpl.
  rewrite Nat.min_l by lia. rewrite Nat.sub_0_r. reflexivity.
Qed.

Lemma js_substring_from_suffix (s : jstr) (n : nat) :
  n <= length s -> js_substring_from s n = skipn n s.
Proof.
  intros H. unfold js_substring_from, js_substring.
  rewrite (Nat.min_l n) by lia. rewrite Nat.min_id.
  rewrite Nat.min_l by lia. rewrite Nat.max_r by lia.
  rewrite firstn_all2; [reflexivity|].
  rewrite length_skipn. lia.
Qed.

(** C6: for [0 <= start <= end <= length body] the splice is
    [body[0:start] + replacement + body[end:]]; with [start = end] it
    deletes nothing: dropping the inserted text gives [body] back. *)
Theorem splice_at_offsets (body r : jstr) (start end_ : nat) :
  start <= end_ <= length body ->
  splice_at body start end_ r = firstn start body ++ r ++ skipn end_ body
  /\ (start = end_ -> firstn start body ++ skipn end_ body = body).
Proof.
  intros [H1 H2]. split.
  - unfold splice_at.
    rewrite js_substring_prefix by lia.
    rewrite js_substring_from_suffix by lia. reflexivity.
  - intros ->. apply firstn_skipn.
Qed.

Lemma splice_at_offsets_witness :
  (1 <= 3 <= length (str "The cat sat."))
  /\ splice_at (str "The cat sat.") 1 3 (str "dog")
     = firstn 1 (str "The cat sat.") ++ str "dog" ++ skipn 3 (str "The cat sat.")
     /\ (1 = 3 -> firstn 1 (str "The cat sat.") ++ skipn 3 (str "The cat sat.")
                  = str "The cat sat.").
Proof.
  split; [simpl; lia|]. apply splice_at_offsets. simpl; lia.
Defined.

(** ** Splices bound to a section *)

Lemma splice_in_section_frame (tid : jstr) (sel : Selection) (seg : jstr)
    (secs : list PaperSection) :
  let secs' := splice_in_section tid sel seg secs in
  map id secs' = map id secs /\ map title secs' = map title secs /\
  Forall2 (fun s s' =>
             if jstr_eqb (id s) tid
             then content s' = splice_at (content s) (sel_start sel) (sel_end sel) seg
             else s' = s) secs secs'.
Proof.
  induction secs as [|s secs IH]; simpl; [repeat split; constructor|].
  destruct IH as (Hid & Hti & Hf).
  destruct (jstr_eqb (id s) tid) eqn:E; simpl;
    rewrite ?Hid, ?Hti; repeat split; try constructor; auto;
    rewrite ?E; reflexivity.
Qed.

(** C7: a splice whose selection is bound to section [tid] (its own
    [sectionId], or the active section outside full-document mode) changes
    only the content of the section(s) with that id: ids, titles, number and
    order of the sections are kept, no re-sectioning happens. *)
Theorem updateDocumentAtSelection_section_frame (clock : nat -> jstr)
    (seg : jstr) (skip : bool) (st : AppState) (sel : Selection) (tid : jstr) :
  selection st = Some sel ->
  (sel_sectionId sel = Some tid /\ tid <> [])
  \/ (isFullDocMode st = false /\ falsy (sel_sectionId sel) = true
      /\ activeSectionId st = tid) ->
  let secs := app_sections st in
  let secs' := app_sections (updateDocumentAtSelection clock seg skip st) in
  map id secs' = map id secs /\ map title secs' = map title secs /\
  Forall2 (fun s s' =>
             if jstr_eqb (id s) tid
             then content s' = splice_at (content s) (sel_start sel) (sel_end sel) seg
             else s' = s) secs secs'.
Proof.
  intros Hsel Hb. cbv zeta.
  assert (Hsecs : app_sections (updateDocumentAtSelection clock seg skip st)
                  = splice_in_section tid sel seg (app_sections st)).
  { unfold updateDocumentAtSelection. rewrite Hsel.
    destruct Hb as [[Hi Hne] | (Hm & Hf & Ha)].
    - rewrite Hi. destruct tid as [|c t]; [congruence|].
      destruct (isFullDocMode st), skip; reflexivity.
    - rewrite Hm. change (false && falsy (sel_sectionId sel)) with false.
      destruct (sel_sectionId sel) as [[|c t]|]; cbn [falsy] in Hf; try discriminate;
        subst; destruct skip; reflexivity. }
  rewrite Hsecs. apply splice_in_section_frame.
Qed.

Lemma updateDocumentAtSelection_section_frame_witness :
  let st := mk_app [mk_section (str "a") (str "A") (str "xyz");
                    mk_section (str "b") (str "B") (str "uvw")]
              (str "a") true None None
              (Some (mk_selection (str "y") 1 2 (Some (str "b")))) true in
  let sel := mk_selection (str "y") 1 2 (Some (str "b")) in
  let tid := str "b" in
  selection st = Some sel
  /\ ((sel_sectionId sel = Some tid /\ tid <> [])
      \/ (isFullDocMode st = false /\ falsy (sel_sectionId sel) = true
          /\ activeSectionId st = tid))
  /\ (let secs := app_sections st in
      let secs' := app_sections (updateDocumentAtSelection (fun _ => [])
                                   (str "Q") false st) in
      map id secs' = map id secs /\ map title secs' = map title secs /\
      Forall2 (fun s s' =>
                 if jstr_eqb (id s) tid
                 then content s' = splice_at (content s) (sel_start sel) (sel_end sel) (str "Q")
                 else s' = s) secs secs').
Proof.
  intros st sel tid.
  assert (H1 : selection st = Some sel) by reflexivity.
  assert (H2 : (sel_sectionId sel = Some tid /\ tid <> [])
               \/ (isFullDocMode st = false /\ falsy (sel_sectionId sel) = true
                   /\ activeSectionId st = tid))
    by (left; split; [reflexivity | discriminate]).
  split; [exact H1|]. split; [exact H2|].
  exact (updateDocumentAtSelection_section_frame (fun _ => []) (str "Q") false
           st sel tid H1 H2).
Defined.

(** ** Confirming a fix *)

(** C10: an issue whose replacement is absent or empty is never applied:
    [handleConfirmFix] returns before touching any state, so the sections and
    the pending issue list are unchanged. *)
Theorem handleConfirmFix_no_replacement_noop (issue : AnalysisIssue) (st : AppState) :
  replacement issue = None \/ replacement issue = Some [] ->
  handleConfirmFix issue st = st.
Proof.
  intros Hr. unfold handleConfirmFix.
  assert (Hf : falsy (replacement issue) = true) by (destruct Hr as [-> | ->]; reflexivity).
  rewrite Hf, orb_true_r. reflexivity.
Qed.

Lemma handleConfirmFix_no_replacement_noop_witness :
  let issue := sample_issue (Some (str "cat")) (Some []) in
  let st := mk_app [mk_section (str "a") (str "A") (str "The cat sat.")] (str "a")
              false (Some (sample_result [issue])) (Some issue) None false in
  (replacement issue = None \/ replacement issue = Some [])
  /\ handleConfirmFix issue st = st.
Proof.
  intros issue st.
  assert (H : replacement issue = None \/ replacement issue = Some [])
    by (right; reflexivity).
  split; [exact H | exact (handleConfirmFix_no_replacement_noop issue st H)].
Defined.

Lemma apply_fix_to_sections_absent (snip rep : jstr) (secs : list PaperSection) :
  Forall (fun s => includes (content s) snip = false) secs ->
  apply_fix_to_sections snip rep secs = secs.
Proof.
  induction 1 as [|s secs Hs _ IH]; simpl; [reflexivity|].
  rewrite Hs, IH. reflexivity.
Qed.

(** C3 fails: the snippet is in no section, nothing is edited, yet the issue
    is removed from the pending list. *)
Lemma handleConfirmFix_absent_removes_issue :
  ~ (app_sections (handleConfirmFix absent_issue absent_state)
       = app_sections absent_state
     /\ option_map issues (analysisResult (handleConfirmFix absent_issue absent_state))
        = option_map issues (analysisResult absent_state)).
Proof.
  intros [_ H]. vm_compute in H. discriminate H.
Qed.

(** C3, as the code does it: when no section contains the (non-empty)
    snippet, every section is left as it is and there is no applied signal.
    With a non-empty snippet and a non-empty replacement the issue is still
    removed by id from the pending list and the preview is cleared, all else
    kept; with an empty (or missing) snippet or replacement the whole state is
    unchanged, whatever the sections contain. *)
Theorem handleConfirmFix_absent_snippet (issue : AnalysisIssue) (st : AppState) :
  (forall snip, snippet issue = Some snip -> snip <> [] ->
     Forall (fun s => includes (content s) snip = false) (app_sections st)) ->
  handleConfirmFix issue st =
  (if falsy (snippet issue) || falsy (replacement issue) then st
   else mk_app (app_sections st) (activeSectionId st) (isFullDocMode st)
          (option_map (remove_issue (issue_id issue)) (analysisResult st))
          None (selection st) (showMicroEditTooltip st)).
Proof.
  intros Hall. unfold handleConfirmFix.
  destruct (falsy (snippet issue) || falsy (replacement issue)) eqn:Ef; [reflexivity|].
  apply orb_false_iff in Ef. destruct Ef as [Es _].
  destruct (snippet issue) as [[|c snip]|] eqn:Hs; try discriminate Es.
  rewrite apply_fix_to_sections_absent; [reflexivity|].
  apply Hall; [reflexivity | discriminate].
Qed.

Lemma handleConfirmFix_absent_snippet_witness :
  (forall snip, snippet absent_issue = Some snip -> snip <> [] ->
     Forall (fun s => includes (content s) snip = false) (app_sections absent_state))
  /\ handleConfirmFix absent_issue absent_state =
     (if falsy (snippet absent_issue) || falsy (replacement absent_issue) then absent_state
      else mk_app (app_sections absent_state) (activeSectionId absent_state)
             (isFullDocMode absent_state)
             (option_map (remove_issue (issue_id absent_issue)) (analysisResult absent_state))
             None (selection absent_state) (showMicroEditTooltip absent_state)).
Proof.
  assert (H : forall snip, snippet absent_issue = Some snip -> snip <> [] ->
                Forall (fun s => includes (content s) snip = false) (app_sections absent_state)).
  { intros snip E _. vm_compute in E. injection E as <-. vm_compute. repeat constructor. }
  split; [exact H | exact (handleConfirmFix_absent_snippet absent_issue absent_state H)].
Defined.

(** C1 fails: the snippet occurs in both sections, and the second section,
    which comes later in document order, is edited too. *)
Lemma handleConfirmFix_edits_later_section :
  nth 1 (app_sections (handleConfirmFix twice_issue twice_state)) (mk_section [] [] [])
  <> nth 1 (app_sections twice_state) (mk_section [] [] [])
  /\ content (nth 1 (app_sections (handleConfirmFix twice_issue twice_state))
                (mk_section [] [] []))
     = str "A dog ran.".
Proof.
  split; [vm_compute; discriminate | vm_compute; reflexivity].
Qed.

(** C1, as the code does it: with a non-empty snippet and a non-empty
    replacement, every section whose content contains the snippet gets
    [content.replace(snippet, replacement)], every other section is kept;
    ids, titles, number and order of the sections are preserved. *)
Theorem handleConfirmFix_every_containing_section (issue : AnalysisIssue)
    (st : AppState) (snip rep : jstr) :
  snippet issue = Some snip -> snip <> [] ->
  replacement issue = Some rep -> rep <> [] ->
  let secs := app_sections st in
  let secs' := app_sections (handleConfirmFix issue st) in
  map id secs' = map id secs /\ map title secs' = map title secs /\
  Forall2 (fun s s' =>
             if includes (content s) snip
             then content s' = js_replace (content s) snip rep
             else s' = s) secs secs'.
Proof.
  intros Hs Hsn Hr Hrn. cbv zeta. unfold handleConfirmFix.
  rewrite Hs, Hr.
  destruct snip as [|a snip]; [congruence|]. destruct rep as [|b rep]; [congruence|].
  simpl. generalize (app_sections st) as secs.
  induction secs as [|s secs (Hid & Hti & Hf)]; simpl; [repeat split; constructor|].
  destruct (includes (content s) (a :: snip)) eqn:E; simpl;
    rewrite ?Hid, ?Hti; repeat split; try constructor; auto; rewrite ?E; reflexivity.
Qed.

Lemma handleConfirmFix_every_containing_section_witness :
  let snip := str "cat" in
  let rep := str "dog" in
  (snippet twice_issue = Some snip /\ snip <> []
   /\ replacement twice_issue = Some rep /\ rep <> [])
  /\ (let secs := app_sections twice_state in
      let secs' := app_sections (handleConfirmFix twice_issue twice_state) in
      map id secs' = map id secs /\ map title secs' = map title secs /\
      Forall2 (fun s s' =>
                 if includes (content s) snip
                 then content s' = js_replace (content s) snip rep
                 else s' = s) secs secs').
Proof.
  intros snip rep.
  assert (H1 : snippet twice_issue = Some snip) by reflexivity.
  assert (H2 : snip <> []) by discriminate.
  assert (H3 : replacement twice_issue = Some rep) by reflexivity.
  assert (H4 : rep <> []) by discriminate.
  split; [repeat split; assumption|].
  exact (handleConfirmFix_every_containing_section twice_issue twice_state snip rep
           H1 H2 H3 H4).
Defined.

(** C4 at the failing input: the replacement [$$5] is not inserted verbatim,
    [String.prototype.replace] turns [$$] into [$]. *)
Theorem handleConfirmFix_dollar_pattern :
  map content (app_sections (handleConfirmFix dollar_issue dollar_state))
    = [str "It cost $5."]
  /\ map content (app_sections (handleConfirmFix dollar_issue dollar_state))
     <> [str "It cost " ++ str "$$5" ++ str "."].
Proof.
  split; vm_compute; [reflexivity | discriminate].
Qed.

(** ** Degenerate input to [modularizeText] *)

(** C2 at the failing inputs: the empty text and a whitespace-only text give
    one section titled "Introduction" with empty content, not
    [INITIAL_SECTIONS]. *)
Theorem modularizeText_blank_input (clock : nat -> jstr) :
  modularizeText clock [] = [mk_section (section_id clock 0) (str "Introduction") []]
  /\ modularizeText clock (str "  ")
     = [mk_section (section_id clock 0) (str "Introduction") []]
  /\ modularizeText clock [] <> INITIAL_SECTIONS.
Proof.
  split; [reflexivity|]. split; [reflexivity|].
  unfold modularizeText. simpl. intros H. injection H. intros. discriminate.
Qed.

(** ** The backtracking matcher *)

Module Matcher.

Lemma first_some_In {A B : Type} (f : A -> option B) (l : list A) (y : B) :
  first_some f l = Some y -> exists x, In x l /\ f x = Some y.
Proof.
  induction l as [|x l IH]; simpl; [discriminate|].
  destruct (f x) eqn:E.
  - intros [= <-]. exists x. auto.
  - intros H. destruct (IH H) as (z & Hz & Hf). exists z. auto.
Qed.

Lemma first_some_not_None {A B : Type} (f : A -> option B) (l : list A) (x : A) :
  In x l -> f x <> None -> first_some f l <> None.
Proof.
  induction l as [|z l IH]; simpl; [contradiction|].
  intros [-> | Hin] Hf.
  - destruct (f x); [discriminate | contradiction].
  - destruct (f z); [discriminate | apply IH; assumption].
Qed.

Lemma first_some_seq_up {B : Type} (f : nat -> option B) (m n : nat) (y : B) :
  first_some f (seq m n) = Some y ->
  exists x, m <= x < m + n /\ f x = Some y /\ (forall k, m <= k < x -> f k = None).
Proof.
  revert m. induction n as [|n IH]; intros m; simpl; [discriminate|].
  destruct (f m) eqn:E.
  - intros [= <-]. exists m. split; [lia|]. split; [exact E|]. intros k Hk; lia.
  - intros H. destruct (IH (S m) H) as (x & Hx & Hf & Hb).
    exists x. split; [lia|]. split; [exact Hf|].
    intros k Hk. destruct (Nat.eq_dec k m); [subst; exact E|]. apply Hb. lia.
Qed.

Lemma first_some_seq_down {B : Type} (f : nat -> option B) (m n : nat) (y : B) :
  first_some f (rev (seq m n)) = Some y ->
  exists x, m <= x < m + n /\ f x = Some y /\ (forall k, x < k < m + n -> f k = None).
Proof.
  induction n as [|n IH]; [simpl; discriminate|].
  rewrite seq_S, rev_app_distr. simpl.
  destruct (f (m + n)) eqn:E.
  - intros [= <-]. exists (m + n). split; [lia|]. split; [exact E|]. intros k Hk; lia.
  - intros H. destruct (IH H) as (x & Hx & Hf & Hb).
    exists x. split; [lia|]. split; [exact Hf|].
    intros k Hk. destruct (Nat.eq_dec k (m + n)); [subst; exact E|]. apply Hb. lia.
Qed.

Lemma class_prefix_le (p : char -> bool) (s : jstr) : class_prefix p s <= length s.
Proof. induction s as [|c s IH]; simpl; [lia|]. destruct (p c); simpl; lia. Qed.

Lemma class_prefix_Forall (p : char -> bool) (s : jstr) :
  Forall (fun c => p c = true) (firstn (class_prefix p s) s).
Proof.
  induction s as [|c s IH]; simpl; [constructor|].
  destruct (p c) eqn:E; simpl; constructor; auto.
Qed.

Lemma class_prefix_ge (p : char -> bool) (g r : jstr) :
  Forall (fun c => p c = true) g -> length g <= class_prefix p (g ++ r).
Proof.
  induction 1 as [|c g Hc _ IH]; simpl; [lia|]. rewrite Hc. lia.
Qed.

Lemma Forall_firstn_le (p : char -> bool) (s : jstr) (k : nat) :
  k <= class_prefix p s -> Forall (fun c => p c = true) (firstn k s).
Proof.
  intros Hk. pose proof (class_prefix_Forall p s) as H.
  rewrite <- (firstn_skipn k (firstn (class_prefix p s) s)) in H.
  apply Forall_app in H. destruct H as [H _].
  rewrite firstn_firstn, Nat.min_l in H by lia. exact H.
Qed.

Lemma In_candidates (a : atom) (s : jstr) (k : nat) :
  In k (candidates a s) <-> min_count a <= k <= class_prefix (cls a) s.
Proof.
  unfold candidates. destruct (greedy a); [rewrite <- in_rev|]; rewrite in_seq; lia.
Qed.

Theorem match_atoms_sound (atoms : list atom) (s : jstr) (segs : list jstr) :
  match_atoms atoms s = Some segs -> decomp atoms segs s.
Proof.
  revert s segs. induction atoms as [|a atoms IH]; intros s segs; simpl.
  - destruct s; [intros [= <-]; reflexivity | discriminate].
  - intros H. apply first_some_In in H. destruct H as (k & Hin & Hk).
    apply In_candidates in Hin.
    destruct (match_atoms atoms (skipn k s)) as [segs'|] eqn:E; simpl in Hk;
      [|discriminate].
    injection Hk as <-. simpl. exists (skipn k s).
    pose proof (class_prefix_le (cls a) s).
    split; [symmetry; apply firstn_skipn|].
    rewrite length_firstn, Nat.min_l by lia.
    split; [lia|]. split; [apply Forall_firstn_le; lia|]. apply IH. exact E.
Qed.

Theorem match_atoms_complete (atoms : list atom) (s : jstr) (segs : list jstr) :
  decomp atoms segs s -> match_atoms atoms s <> None.
Proof.
  revert s segs. induction atoms as [|a atoms IH]; intros s segs; simpl.
  - destruct segs; [intros ->; discriminate | contradiction].
  - destruct segs as [|g segs]; [contradiction|].
    intros (rest & -> & Hmin & Hcls & Hd).
    apply (first_some_not_None _ _ (length g)).
    + apply In_candidates. split; [exact Hmin|]. apply class_prefix_ge. exact Hcls.
    + rewrite skipn_app, skipn_all, Nat.sub_diag. simpl.
      destruct (match_atoms atoms rest) eqn:E; [discriminate|].
      exfalso. exact (IH rest segs Hd E).
Qed.

Lemma decomp_length (atoms : list atom) (segs : list jstr) (s : jstr) :
  decomp atoms segs s -> length segs = length atoms.
Proof.
  revert segs s. induction atoms as [|a atoms IH]; intros [|g segs] s; simpl;
    try contradiction; auto.
  intros (rest & _ & _ & _ & Hd). f_equal. exact (IH _ _ Hd).
Qed.

Corollary match_atoms_iff (atoms : list atom) (s : jstr) :
  match_atoms atoms s <> None <-> exists segs, decomp atoms segs s.
Proof.
  split.
  - destruct (match_atoms atoms s) as [segs|] eqn:E; [|congruence].
    intros _. exists segs. apply match_atoms_sound. exact E.
  - intros [segs H]. exact (match_atoms_complete atoms s segs H).
Qed.

(** The count chosen for the first atom is the first one, in backtracking
    order, for which the remaining atoms match. *)
Lemma match_atoms_cons_inv (a : atom) (atoms : list atom) (s : jstr) (segs : list jstr) :
  match_atoms (a :: atoms) s = Some segs ->
  exists k tl, min_count a <= k <= class_prefix (cls a) s
    /\ segs = firstn k s :: tl /\ match_atoms atoms (skipn k s) = Some tl
    /\ (if greedy a
        then forall j, k < j <= class_prefix (cls a) s -> match_atoms atoms (skipn j s) = None
        else forall j, min_count a <= j < k -> match_atoms atoms (skipn j s) = None).
Proof.
  simpl. unfold candidates.
  set (f := fun k => option_map (cons (firstn k s)) (match_atoms atoms (skipn k s))).
  assert (Hf : forall j, f j = None -> match_atoms atoms (skipn j s) = None).
  { intros j. unfold f. destruct (match_atoms atoms (skipn j s)); [discriminate|auto]. }
  assert (Hs : forall j, f j = Some segs ->
                 exists tl, segs = firstn j s :: tl /\ match_atoms atoms (skipn j s) = Some tl).
  { intros j. unfold f. destruct (match_atoms atoms (skipn j s)) as [tl|]; [|discriminate].
    intros [= <-]. exists tl. auto. }
  destruct (greedy a).
  - intros H. apply first_some_seq_down in H. destruct H as (x & Hx & Hfx & Hb).
    destruct (Hs x Hfx) as (tl & -> & Hm). exists x, tl.
    split; [lia|]. split; [reflexivity|]. split; [exact Hm|].
    intros j Hj. apply Hf, Hb. lia.
  - intros H. apply first_some_seq_up in H. destruct H as (x & Hx & Hfx & Hb).
    destruct (Hs x Hfx) as (tl & -> & Hm). exists x, tl.
    split; [lia|]. split; [reflexivity|]. split; [exact Hm|].
    intros j Hj. apply Hf, Hb. lia.
Qed.

End Matcher.

(** ** Heading lines *)

Import Matcher.

Lemma header_of_None (line : jstr) :
  header_of line = None <-> match_atoms regexA line = None /\ match_atoms regexB line = None.
Proof.
  unfold header_of.
  destruct (match_atoms regexA line), (match_atoms regexB line); split;
    try discriminate; try (intros [H1 H2]; discriminate); auto.
Qed.

Lemma nonempty_length (s : jstr) : s <> [] <-> 1 <= length s.
Proof. destruct s; simpl; split; intros H; try lia; try congruence; discriminate. Qed.

Lemma dot_iff (t : jstr) :
  Forall (fun c => is_dot c = true) t <-> Forall (fun c => is_line_terminator c = false) t.
Proof.
  split; apply Forall_impl; unfold is_dot; intros c; destruct (is_line_terminator c); auto.
Qed.

Lemma decomp_regexA (line : jstr) :
  (exists segs, decomp regexA segs line) <-> heading_a_shape line.
Proof.
  split.
  - intros [segs Hd].
    pose proof (decomp_length _ _ _ Hd) as Hlen.
    destruct segs as [|g0 [|g1 [|g2 [|g3 [|g4 [|]]]]]]; simpl in Hlen; try discriminate.
    simpl in Hd.
    destruct Hd as (r0 & -> & _ & H0 & r1 & -> & Hm1 & H1 & r2 & -> & _ & H2 & r3 & -> & Hm3
                    & H3 & r4 & -> & _ & H4 & ->).
    exists g0, g1, g2, g3, g4. rewrite app_nil_r.
    repeat split; auto; try (apply nonempty_length; exact Hm1);
      try (apply nonempty_length; exact Hm3); apply dot_iff; exact H3.
  - intros (g0 & g1 & g2 & g3 & g4 & -> & H0 & Hn1 & H1 & H2 & Hn3 & H3 & H4).
    exists [g0; g1; g2; g3; g4]. simpl.
    exists (g1 ++ g2 ++ g3 ++ g4). split; [reflexivity|]. split; [lia|]. split; [exact H0|].
    exists (g2 ++ g3 ++ g4). split; [reflexivity|].
    split; [apply nonempty_length; exact Hn1|]. split; [exact H1|].
    exists (g3 ++ g4). split; [reflexivity|]. split; [lia|]. split; [exact H2|].
    exists g4. split; [reflexivity|].
    split; [apply nonempty_length; exact Hn3|]. split; [apply dot_iff; exact H3|].
    exists []. split; [symmetry; apply app_nil_r|]. split; [lia|]. split; [exact H4|].
    reflexivity.
Qed.

Lemma ws_upper (s : jstr) : all_ws s -> Forall (fun c => is_upper_or_ws c = true) s.
Proof.
  apply Forall_impl. intros c H. unfold is_upper_or_ws. rewrite H, orb_true_r. reflexivity.
Qed.

Lemma decomp_regexB (line : jstr) :
  (exists segs, decomp regexB segs line) <-> heading_b_shape line.
Proof.
  split.
  - intros [segs Hd].
    pose proof (decomp_length _ _ _ Hd) as Hlen.
    destruct segs as [|g0 [|g1 [|g2 [|]]]]; simpl in Hlen; try discriminate.
    simpl in Hd.
    destruct Hd as (r0 & -> & _ & H0 & r1 & -> & Hm1 & H1 & r2 & -> & _ & H2 & ->).
    rewrite app_nil_r. split.
    + rewrite !length_app. lia.
    + apply Forall_app. split; [apply ws_upper; exact H0|].
      apply Forall_app. split; [exact H1 | apply ws_upper; exact H2].
  - intros [Hl Hu]. exists [[]; line; []]. simpl.
    exists line. split; [reflexivity|]. split; [lia|]. split; [constructor|].
    exists []. split; [symmetry; apply app_nil_r|]. split; [exact Hl|]. split; [exact Hu|].
    exists []. split; [reflexivity|]. split; [lia|]. split; [constructor|]. reflexivity.
Qed.

(** C5 fails: a line made only of [#] characters, a line whose trimmed text
    has fewer than four uppercase letters, and a whitespace-only line are all
    heading lines. *)
Lemma header_of_loose_lines :
  header_of (str "##") = Some (str "#")
  /\ header_of (str "  AB") = Some (str "  AB")
  /\ header_of (str "    ") = Some (str "    ").
Proof. vm_compute. repeat split. Qed.

Lemma header_of_shapes (line : jstr) :
  header_of line <> None <-> heading_a_shape line \/ heading_b_shape line.
Proof.
  rewrite <- decomp_regexA, <- decomp_regexB, <- !match_atoms_iff.
  split.
  - intros H. destruct (match_atoms regexA line) eqn:EA; [left; discriminate|].
    destruct (match_atoms regexB line) eqn:EB; [right; discriminate|].
    exfalso. apply H. apply header_of_None. auto.
  - intros Hab Hn. apply header_of_None in Hn. destruct Hn as [HA HB].
    destruct Hab as [H|H]; contradiction.
Qed.

(** C5, as the code does it: a line is a heading line exactly when it has
    shape (a) of [/^\s*(#+)\s*(.+?)\s*$/] or shape (b) of
    [/^\s*([A-Z\s]{4,})\s*$/]; every other line is a content line. *)
Theorem header_of_iff_shapes (line : jstr) :
  header_of line <> None <-> heading_a_shape line \/ heading_b_shape line.
Proof. exact (header_of_shapes line). Qed.

Lemma regexA_parts (line : jstr) (segs : list jstr) :
  match_atoms regexA line = Some segs ->
  exists g0 g1 g2 g3 g4, segs = [g0; g1; g2; g3; g4]
    /\ line = g0 ++ g1 ++ g2 ++ g3 ++ g4
    /\ all_ws g0 /\ g1 <> [] /\ Forall (fun c => is_hash c = true) g1 /\ all_ws g2
    /\ g3 <> [] /\ Forall (fun c => is_dot c = true) g3 /\ all_ws g4.
Proof.
  intros H. apply match_atoms_sound in H.
  pose proof (decomp_length _ _ _ H) as Hlen.
  destruct segs as [|g0 [|g1 [|g2 [|g3 [|g4 [|]]]]]]; simpl in Hlen; try discriminate.
  simpl in H.
  destruct H as (r0 & -> & _ & H0 & r1 & -> & Hm1 & H1 & r2 & -> & _ & H2 & r3 & -> & Hm3
                 & H3 & r4 & -> & _ & H4 & ->).
  exists g0, g1, g2, g3, g4. rewrite app_nil_r.
  repeat split; auto; apply nonempty_length; assumption.
Qed.

Lemma header_of_nonempty (line h : jstr) : header_of line = Some h -> h <> [].
Proof.
  unfold header_of.
  destruct (match_atoms regexA line) as [segs|] eqn:EA.
  - apply regexA_parts in EA.
    destruct EA as (g0 & g1 & g2 & g3 & g4 & -> & _ & _ & _ & _ & _ & Hn3 & _).
    simpl. destruct g3; [congruence|]. intros [= <-]. discriminate.
  - destruct (match_atoms regexB line) as [segs|] eqn:EB; [|discriminate].
    apply match_atoms_sound in EB. pose proof (decomp_length _ _ _ EB) as Hlen.
    destruct segs as [|g0 [|g1 [|g2 [|]]]]; simpl in Hlen; try discriminate.
    simpl in EB. destruct EB as (_ & _ & _ & _ & r1 & _ & Hm1 & _).
    intros [= <-]. destruct g1; simpl in Hm1; [lia | discriminate].
Qed.

(** ** The sectioning loop *)

Module Sectioning.

Lemma jstr_eqb_nil (h : jstr) : jstr_eqb h [] = true <-> h = [].
Proof.
  unfold jstr_eqb. destruct (list_eq_dec _ _ _) as [E|E];
    split; intros H; try reflexivity; try discriminate;
    first [exact E | exfalso; exact (E H)].
Qed.

Lemma run_spec (clock : nat -> jstr) (lines : list jstr) (st : LoopState) :
  map tc (fst (flush clock (fold_left (step clock) lines st) (str "Introduction")))
  = map tc (sections st)
    ++ pending (currentHeader st) (currentContent st) (fst (groups lines)) (snd (groups lines))
    ++ map block (snd (groups lines)).
Proof.
  revert st. induction lines as [|l ls IH]; intros st.
  - simpl. unfold flush, pending. rewrite !app_nil_r.
    destruct (_ || _); simpl; rewrite ?map_app, ?app_nil_r; reflexivity.
  - simpl. rewrite IH.
    destruct (groups ls) as [lead gs] eqn:Eg. unfold step.
    destruct (header_of l) as [h|] eqn:Eh.
    + destruct (flush clock st (str "Front Matter")) as [secs n] eqn:Ef. simpl.
      assert (Hh : h <> []) by exact (header_of_nonempty l h Eh).
      assert (Hp : pending h [] lead gs = [(h, trim (join [LF] lead))]).
      { unfold pending. destruct (jstr_eqb h []) eqn:E.
        - apply jstr_eqb_nil in E. contradiction.
        - rewrite orb_true_r. destruct h; [congruence | reflexivity]. }
      rewrite Hp. unfold flush in Ef.
      unfold pending. rewrite app_nil_r.
      destruct (_ || _); injection Ef as <- <-; simpl;
        rewrite ?map_app, <- ?app_assoc; reflexivity.
    + simpl. unfold pending. simpl. rewrite <- app_assoc. reflexivity.
Qed.

Lemma groups_titles (lines : list jstr) :
  map fst (snd (groups lines))
  = flat_map (fun l => match header_of l with Some h => [h] | None => [] end) lines.
Proof.
  induction lines as [|l ls IH]; simpl; [reflexivity|].
  destruct (groups ls) as [lead gs]. simpl in IH.
  destruct (header_of l); simpl; rewrite IH; reflexivity.
Qed.

Lemma groups_lead_nil (lines : list jstr) :
  fst (groups lines) = []
  <-> match lines with [] => True | l :: _ => header_of l <> None end.
Proof.
  destruct lines as [|l ls]; simpl; [tauto|].
  destruct (groups ls) as [lead gs].
  destruct (header_of l); simpl; split; intros H; try discriminate; auto; congruence.
Qed.

End Sectioning.

Lemma split_lines_aux_nonempty (cur s : jstr) : split_lines_aux cur s <> [].
Proof.
  revert cur. induction s as [|c s IH]; intros cur; simpl; [discriminate|].
  destruct (N.eqb c CR).
  - destruct s as [|d s']; [apply IH|]. destruct (N.eqb d LF); [discriminate | apply IH].
  - destruct (N.eqb c LF); [discriminate | apply IH].
Qed.

Lemma modularize_sections_titles (clock : nat -> jstr) (text : jstr) :
  map title (modularize_sections clock text)
  = leading_title (split_lines text) ++ heading_titles (split_lines text).
Proof.
  unfold modularize_sections.
  replace (map title _) with (map fst (map tc
    (fst (flush clock (fold_left (step clock) (split_lines text) (loop_init))
            (str "Introduction")))))
    by (rewrite map_map; reflexivity).
  rewrite Sectioning.run_spec. cbn [sections currentHeader currentContent loop_init map app].
  pose proof (Sectioning.groups_titles (split_lines text)) as Htt.
  fold (heading_titles (split_lines text)) in Htt.
  pose proof (Sectioning.groups_lead_nil (split_lines text)) as Hl.
  pose proof (split_lines_aux_nonempty [] text) as Hne.
  fold (split_lines text) in Hne.
  unfold leading_title.
  destruct (split_lines text) as [|l ls]; [congruence|].
  destruct (groups (l :: ls)) as [lead gs]. simpl in Hl. cbn [snd] in Htt.
  rewrite map_app, map_map, <- Htt. unfold block. cbn [fst].
  unfold pending.
  destruct (header_of l) as [h|] eqn:Eh.
  - assert (lead = []) as -> by (apply Hl; discriminate). reflexivity.
  - destruct lead as [|x lead]; [exfalso; apply (proj1 Hl eq_refl); reflexivity|].
    destruct gs; reflexivity.
Qed.

Lemma modularize_sections_nonempty (clock : nat -> jstr) (text : jstr) :
  modularize_sections clock text <> [].
Proof.
  intros E. pose proof (modularize_sections_titles clock text) as Ht.
  rewrite E in Ht. simpl in Ht.
  pose proof (split_lines_aux_nonempty [] text) as Hne.
  fold (split_lines text) in Hne.
  unfold leading_title, heading_titles in Ht.
  destruct (split_lines text) as [|l ls]; [congruence|].
  simpl in Ht. destruct (header_of l); simpl in Ht; discriminate.
Qed.

Lemma modularizeText_sections (clock : nat -> jstr) (text : jstr) :
  modularizeText clock text = modularize_sections clock text.
Proof.
  pose proof (modularize_sections_nonempty clock text) as Hn.
  unfold modularizeText.
  destruct (modularize_sections clock text); [contradiction | reflexivity].
Qed.

(** C9: [modularizeText] never returns an empty list, and its sections come
    in the order of the headings met in the input, after one "Front Matter"
    (or, with no heading at all, "Introduction") section for the lines before
    the first heading, if the input starts with a content line. *)
Theorem modularizeText_ordered (clock : nat -> jstr) (text : jstr) :
  modularizeText clock text <> []
  /\ map title (modularizeText clock text)
     = leading_title (split_lines text) ++ heading_titles (split_lines text).
Proof.
  rewrite modularizeText_sections.
  exact (conj (modularize_sections_nonempty clock text)
              (modularize_sections_titles clock text)).
Qed.

(** ** Serialising with [fullText] and importing again *)

Lemma ends_cr_app (w x : jstr) : x <> [] -> ends_cr (w ++ x) = ends_cr x.
Proof.
  intros Hx. induction x as [|c x _] using rev_ind; [congruence|].
  unfold ends_cr. rewrite app_assoc, !rev_app_distr. reflexivity.
Qed.

Lemma ends_cr_tail (c : char) (a : jstr) : ends_cr (c :: a) = false -> ends_cr a = false.
Proof.
  destruct a as [|d a]; [reflexivity|].
  intros H. rewrite <- (ends_cr_app [c]); [exact H | discriminate].
Qed.

Lemma split_lines_aux_cons (cur : jstr) (c : char) (s : jstr) :
  split_lines_aux cur (c :: s)
  = if N.eqb c CR then
      match s with
      | d :: s'' => if N.eqb d LF then rev cur :: split_lines_aux [] s''
                    else split_lines_aux (c :: cur) s
      | [] => split_lines_aux (c :: cur) s
      end
    else if N.eqb c LF then rev cur :: split_lines_aux [] s
    else split_lines_aux (c :: cur) s.
Proof. reflexivity. Qed.

Lemma split_lines_aux_lf (cur s : jstr) :
  split_lines_aux cur (LF :: s) = rev cur :: split_lines_aux [] s.
Proof. reflexivity. Qed.

(** Cutting at a line feed that does not follow a carriage return. *)
Lemma split_lines_app_lf (a b cur : jstr) :
  ends_cr a = false ->
  split_lines_aux cur (a ++ LF :: b) = split_lines_aux cur a ++ split_lines_aux [] b.
Proof.
  remember (length a) as n eqn:En. revert a cur En.
  induction n as [n IH] using lt_wf_ind. intros a cur En Ha.
  destruct a as [|c a]; [reflexivity|].
  cbn [app]. rewrite !split_lines_aux_cons.
  destruct (N.eqb c CR) eqn:Ec.
  - destruct a as [|d a'].
    + unfold ends_cr in Ha. simpl in Ha. rewrite Ec in Ha. discriminate.
    + cbn [app]. destruct (N.eqb d LF) eqn:Ed.
      * cbn [app]. f_equal. apply (IH (length a')); [simpl in En; lia | reflexivity |].
        apply (ends_cr_tail d), (ends_cr_tail c). exact Ha.
      * rewrite (app_comm_cons a' (LF :: b) d).
        apply (IH (length (d :: a'))); [simpl in En; simpl; lia | reflexivity |].
        apply (ends_cr_tail c). exact Ha.
  - destruct (N.eqb c LF) eqn:El.
    + cbn [app]. f_equal. apply (IH (length a)); [simpl in En; lia | reflexivity |].
      apply (ends_cr_tail c). exact Ha.
    + apply (IH (length a)); [simpl in En; lia | reflexivity |].
      apply (ends_cr_tail c). exact Ha.
Qed.

Lemma split_lines_no_lf (s cur : jstr) :
  ~ In LF s -> split_lines_aux cur s = [rev cur ++ s].
Proof.
  revert cur. induction s as [|c s IH]; intros cur Hs.
  - rewrite app_nil_r. reflexivity.
  - rewrite split_lines_aux_cons.
    assert (Hc : c <> LF) by (intros ->; apply Hs; left; reflexivity).
    assert (Hs' : ~ In LF s) by (intros H; apply Hs; right; exact H).
    assert (Eq : rev (c :: cur) ++ s = rev cur ++ c :: s)
      by (simpl; rewrite <- app_assoc; reflexivity).
    destruct (N.eqb c CR).
    + destruct s as [|d s'].
      * rewrite IH by exact Hs'. rewrite Eq. reflexivity.
      * destruct (N.eqb d LF) eqn:Ed.
        -- apply N.eqb_eq in Ed. subst d. exfalso. apply Hs'. left. reflexivity.
        -- rewrite IH by exact Hs'. rewrite Eq. reflexivity.
    + destruct (N.eqb c LF) eqn:El; [apply N.eqb_eq in El; contradiction|].
      rewrite IH by exact Hs'. rewrite Eq. reflexivity.
Qed.

Lemma join_cons (sep x : jstr) (L : list jstr) :
  L <> [] -> join sep (x :: L) = x ++ sep ++ join sep L.
Proof. destruct L; [congruence | reflexivity]. Qed.

Lemma join_app_single (sep y : jstr) (X : list jstr) :
  X <> [] -> join sep (X ++ [y]) = join sep X ++ sep ++ y.
Proof.
  induction X as [|x X IH]; intros H; [congruence|].
  destruct X as [|x' X]; [reflexivity|].
  rewrite <- app_comm_cons. rewrite join_cons by (simpl; discriminate).
  rewrite IH by discriminate. rewrite (join_cons sep x (x' :: X)) by discriminate.
  rewrite <- !app_assoc. reflexivity.
Qed.

(** Lines with no line feed, none ending with a carriage return, come back
    from [split] as they were joined. *)
Lemma split_lines_join (L : list jstr) :
  L <> [] -> Forall (fun l => ~ In LF l /\ ends_cr l = false) L ->
  split_lines (join [LF] L) = L.
Proof.
  induction L as [|l L IH]; intros Hn HL; [congruence|].
  inversion HL as [|? ? [Hl Hc] HL']; subst.
  destruct L as [|l' L].
  - unfold split_lines. simpl. rewrite split_lines_no_lf by exact Hl. reflexivity.
  - rewrite join_cons by discriminate. unfold split_lines.
    change ([LF] ++ join [LF] (l' :: L)) with (LF :: join [LF] (l' :: L)).
    rewrite split_lines_app_lf by exact Hc.
    rewrite split_lines_no_lf by exact Hl.
    fold (split_lines (join [LF] (l' :: L))). rewrite IH by (discriminate || exact HL').
    reflexivity.
Qed.

Lemma split_lines_aux_no_lf_lines (s cur : jstr) :
  ~ In LF cur -> Forall (fun l => ~ In LF l) (split_lines_aux cur s).
Proof.
  remember (length s) as n eqn:En. revert s cur En.
  induction n as [n IH] using lt_wf_ind. intros s cur En Hcur.
  assert (Hrev : ~ In LF (rev cur)) by (rewrite <- in_rev; exact Hcur).
  destruct s as [|c s]; [constructor; [exact Hrev | constructor]|].
  rewrite split_lines_aux_cons.
  assert (Hcc : forall d, d <> LF -> ~ In LF (d :: cur))
    by (intros d Hd [H|H]; [congruence | contradiction]).
  destruct (N.eqb c CR) eqn:Ec.
  - apply N.eqb_eq in Ec. subst c.
    destruct s as [|d s'].
    + apply (IH 0); [simpl in En; lia | reflexivity | apply Hcc; discriminate].
    + destruct (N.eqb d LF).
      * constructor; [exact Hrev|].
        apply (IH (length s')); [simpl in En; lia | reflexivity | intros []].
      * apply (IH (length (d :: s'))); [simpl in En; simpl; lia | reflexivity |
          apply Hcc; discriminate].
  - destruct (N.eqb c LF) eqn:El.
    + constructor; [exact Hrev|].
      apply (IH (length s)); [simpl in En; lia | reflexivity | intros []].
    + apply (IH (length s)); [simpl in En; lia | reflexivity |].
      apply Hcc. intros ->. discriminate.
Qed.

Lemma split_lines_no_lf_lines (s : jstr) : Forall (fun l => ~ In LF l) (split_lines s).
Proof. apply split_lines_aux_no_lf_lines. intros []. Qed.

(** *** [trim] *)

Lemma trim_start_app (a b : jstr) :
  trim_start (a ++ b) = match trim_start a with [] => trim_start b | t => t ++ b end.
Proof.
  induction a as [|c a IH]; [reflexivity|].
  simpl. destruct (is_ws c); [exact IH | reflexivity].
Qed.

Lemma trim_start_ws_app (w s : jstr) : all_ws w -> trim_start (w ++ s) = trim_start s.
Proof.
  induction w as [|c w IH]; intros H; [reflexivity|].
  inversion H as [|? ? Hc Hw]; subst. simpl. rewrite Hc. exact (IH Hw).
Qed.

Lemma trim_end_app_ws (s w : jstr) : all_ws w -> trim_end (s ++ w) = trim_end s.
Proof.
  intros H. unfold trim_end. rewrite rev_app_distr, trim_start_ws_app; [reflexivity|].
  apply Forall_rev. exact H.
Qed.

Lemma trim_start_split (s : jstr) : exists w, all_ws w /\ s = w ++ trim_start s.
Proof.
  induction s as [|c s IH]; [exists []; split; [constructor | reflexivity]|].
  simpl. destruct (is_ws c) eqn:Ec.
  - destruct IH as (w & Hw & E). exists (c :: w). split; [constructor; assumption|].
    simpl. rewrite <- E. reflexivity.
  - exists []. split; [constructor | reflexivity].
Qed.

Lemma trim_end_split (s : jstr) : exists w, all_ws w /\ s = trim_end s ++ w.
Proof.
  destruct (trim_start_split (rev s)) as (w & Hw & E).
  exists (rev w). split; [apply Forall_rev; exact Hw|].
  unfold trim_end. rewrite <- rev_app_distr, <- E, rev_involutive. reflexivity.
Qed.

Lemma trim_start_head (s : jstr) :
  trim_start s = [] \/ exists c r, trim_start s = c :: r /\ is_ws c = false.
Proof.
  induction s as [|c s IH]; [left; reflexivity|].
  simpl. destruct (is_ws c) eqn:Ec; [exact IH|]. right. exists c, s. auto.
Qed.

Lemma trim_end_last (s : jstr) :
  trim_end s = [] \/ exists r c, trim_end s = r ++ [c] /\ is_ws c = false.
Proof.
  unfold trim_end. destruct (trim_start_head (rev s)) as [E|(c & r & E & Hc)];
    rewrite E; [left; reflexivity|].
  right. exists (rev r), c. auto.
Qed.

Lemma trim_start_idem (s : jstr) : trim_start (trim_start s) = trim_start s.
Proof.
  induction s as [|c s IH]; [reflexivity|].
  simpl. destruct (is_ws c) eqn:Ec; [exact IH|]. simpl. rewrite Ec. reflexivity.
Qed.

Lemma trim_idem (s : jstr) : trim (trim s) = trim s.
Proof.
  unfold trim. set (y := trim_start s).
  assert (Hy : trim_start y = y) by apply trim_start_idem.
  destruct (trim_end_split y) as (w & Hw & E).
  assert (Hs : trim_start (trim_end y) = trim_end y).
  { destruct (trim_end y) as [|c r] eqn:Et; [reflexivity|].
    destruct (trim_start_head y) as [Ey|(d & r' & Ey & Hd)]; rewrite Hy in Ey.
    - rewrite Ey in E. discriminate.
    - rewrite Ey in E. injection E as <- _.
      simpl. rewrite Hd. reflexivity. }
  rewrite Hs. unfold trim_end. rewrite rev_involutive, trim_start_idem. reflexivity.
Qed.

Lemma trim_ws_around (w1 x w2 : jstr) :
  all_ws w1 -> all_ws w2 -> trim (w1 ++ x ++ w2) = trim x.
Proof.
  intros H1 H2. unfold trim. rewrite trim_start_ws_app by exact H1.
  rewrite trim_start_app.
  destruct (trim_start x) as [|c t] eqn:E.
  - rewrite <- (app_nil_r w2), trim_start_ws_app by exact H2. reflexivity.
  - rewrite trim_end_app_ws by exact H2. reflexivity.
Qed.

Lemma ends_cr_trim_end (s : jstr) : ends_cr (trim_end s) = false.
Proof.
  destruct (trim_end_last s) as [E|(r & c & E & Hc)]; rewrite E; [reflexivity|].
  unfold ends_cr. rewrite rev_app_distr. simpl.
  destruct (N.eqb c CR) eqn:Ec; [|reflexivity].
  apply N.eqb_eq in Ec. subst c. discriminate.
Qed.

(** *** Trimming joined lines *)

Lemma ltrim_join (L : list jstr) :
  trim_start (join [LF] L) = join [LF] (ltrim_lines L).
Proof.
  induction L as [|l L IH]; [reflexivity|].
  destruct L as [|l2 L2]; [reflexivity|].
  rewrite join_cons by discriminate. rewrite trim_start_app.
  change (ltrim_lines (l :: l2 :: L2))
    with (match trim_start l with [] => ltrim_lines (l2 :: L2) | t => t :: l2 :: L2 end).
  destruct (trim_start l) as [|c t].
  - exact IH.
  - reflexivity.
Qed.

Lemma ltrim_lines_Forall (P : jstr -> Prop) (L : list jstr) :
  (forall l, P l -> P (trim_start l)) -> Forall P L -> Forall P (ltrim_lines L).
Proof.
  intros HP. induction L as [|l L IH]; intros HL; [constructor|].
  inversion HL as [|? ? Hl HL']; subst.
  destruct L as [|l2 L2]; [constructor; [apply HP; exact Hl | constructor]|].
  change (ltrim_lines (l :: l2 :: L2))
    with (match trim_start l with [] => ltrim_lines (l2 :: L2) | t => t :: l2 :: L2 end).
  destruct (trim_start l) as [|c t] eqn:E.
  - exact (IH HL').
  - constructor; [rewrite <- E; apply HP; exact Hl | exact HL'].
Qed.

Lemma ltrim_lines_nonempty (L : list jstr) : L <> [] -> ltrim_lines L <> [].
Proof.
  induction L as [|l L IH]; intros H; [congruence|].
  destruct L as [|l2 L2]; [discriminate|].
  change (ltrim_lines (l :: l2 :: L2))
    with (match trim_start l with [] => ltrim_lines (l2 :: L2) | t => t :: l2 :: L2 end).
  destruct (trim_start l); [apply IH; discriminate | discriminate].
Qed.

Lemma rev_join (sep : jstr) (L : list jstr) :
  rev (join sep L) = join (rev sep) (rev (map (@rev char) L)).
Proof.
  induction L as [|l L IH]; [reflexivity|].
  destruct L as [|l2 L2]; [reflexivity|].
  rewrite join_cons by discriminate.
  change (rev (map (@rev char) (l :: l2 :: L2)))
    with (rev (map (@rev char) (l2 :: L2)) ++ [rev l]).
  rewrite join_app_single by (simpl; destruct (rev (map (@rev char) L2)); discriminate).
  rewrite !rev_app_distr, IH, <- app_assoc. reflexivity.
Qed.

Lemma rtrim_join (L : list jstr) :
  trim_end (join [LF] L) = join [LF] (rtrim_lines L).
Proof.
  unfold trim_end, rtrim_lines.
  rewrite rev_join. change (rev [LF]) with [LF].
  rewrite ltrim_join, rev_join. reflexivity.
Qed.

Lemma rtrim_lines_Forall (P : jstr -> Prop) (L : list jstr) :
  (forall l, P l -> P (trim_end l)) -> Forall P L -> Forall P (rtrim_lines L).
Proof.
  intros HP HL. unfold rtrim_lines.
  apply Forall_rev, Forall_map.
  apply (ltrim_lines_Forall (fun x => P (rev x))).
  - intros l Hl. specialize (HP (rev l) Hl). unfold trim_end in HP.
    rewrite rev_involutive in HP. exact HP.
  - apply Forall_rev, Forall_map.
    eapply Forall_impl; [|exact HL]. intros a Ha. rewrite rev_involutive. exact Ha.
Qed.

Lemma rtrim_lines_nonempty (L : list jstr) : L <> [] -> rtrim_lines L <> [].
Proof.
  intros H. unfold rtrim_lines. intros E.
  apply (f_equal (@length jstr)) in E. rewrite length_rev, length_map in E.
  apply length_zero_iff_nil in E. revert E. apply ltrim_lines_nonempty.
  intros E. apply (f_equal (@length jstr)) in E. rewrite length_rev, length_map in E.
  apply length_zero_iff_nil in E. contradiction.
Qed.

Lemma trim_join (L : list jstr) :
  trim (join [LF] L) = join [LF] (rtrim_lines (ltrim_lines L)).
Proof. unfold trim. rewrite ltrim_join, rtrim_join. reflexivity. Qed.

(** *** Content lines and heading titles *)

Lemma shape_ws_left (w x : jstr) :
  all_ws w -> heading_a_shape x \/ heading_b_shape x ->
  heading_a_shape (w ++ x) \/ heading_b_shape (w ++ x).
Proof.
  intros Hw [(lead & hs & gap & t & tr & -> & Hl & H1 & H2 & H3 & H4 & H5 & H6)|(Hlen & Hu)].
  - left. exists (w ++ lead), hs, gap, t, tr. rewrite <- app_assoc.
    split; [reflexivity|]. split; [apply Forall_app; split; assumption|].
    repeat split; assumption.
  - right. split; [rewrite length_app; lia|]. apply Forall_app. split; [apply ws_upper|]; assumption.
Qed.

Lemma shape_ws_right (w x : jstr) :
  all_ws w -> heading_a_shape x \/ heading_b_shape x ->
  heading_a_shape (x ++ w) \/ heading_b_shape (x ++ w).
Proof.
  intros Hw [(lead & hs & gap & t & tr & -> & Hl & H1 & H2 & H3 & H4 & H5 & H6)|(Hlen & Hu)].
  - left. exists lead, hs, gap, t, (tr ++ w). rewrite <- !app_assoc.
    split; [reflexivity|]. repeat (split; [assumption|]).
    apply Forall_app; split; assumption.
  - right. split; [rewrite length_app; lia|]. apply Forall_app. split; [|apply ws_upper]; assumption.
Qed.

Lemma header_none_ws_left (w x : jstr) :
  all_ws w -> header_of (w ++ x) = None -> header_of x = None.
Proof.
  intros Hw H. destruct (header_of x) eqn:E; [exfalso|reflexivity].
  assert (Hx : header_of x <> None) by congruence.
  apply header_of_shapes, (shape_ws_left w) in Hx; [|exact Hw].
  apply header_of_shapes in Hx. contradiction.
Qed.

Lemma header_none_ws_right (w x : jstr) :
  all_ws w -> header_of (x ++ w) = None -> header_of x = None.
Proof.
  intros Hw H. destruct (header_of x) eqn:E; [exfalso|reflexivity].
  assert (Hx : header_of x <> None) by congruence.
  apply header_of_shapes, (shape_ws_right w) in Hx; [|exact Hw].
  apply header_of_shapes in Hx. contradiction.
Qed.

Lemma line_ok_trim_start (l : jstr) : line_ok l -> line_ok (trim_start l).
Proof.
  intros (H1 & H2 & H3). destruct (trim_start_split l) as (w & Hw & E).
  set (t := trim_start l) in *. rewrite E in H1, H2, H3.
  split; [|split].
  - intros H. apply H1, in_or_app. right. exact H.
  - destruct t as [|c t']; [reflexivity|]. rewrite <- H2. symmetry.
    apply ends_cr_app. discriminate.
  - exact (header_none_ws_left w t Hw H3).
Qed.

Lemma line_ok_trim_end (l : jstr) : line_ok l -> line_ok (trim_end l).
Proof.
  intros (H1 & H2 & H3). destruct (trim_end_split l) as (w & Hw & E).
  split; [|split].
  - intros H. apply H1. rewrite E. apply in_or_app. left. exact H.
  - apply ends_cr_trim_end.
  - rewrite E in H3. exact (header_none_ws_right w _ Hw H3).
Qed.

Lemma header_of_nil : header_of [] = None.
Proof. reflexivity. Qed.

(** The content [trim(lines.join('\n'))] of a section is itself the join of
    content lines. *)
Lemma trim_join_ok (L : list jstr) :
  Forall line_ok L ->
  exists L', L' <> [] /\ Forall line_ok L' /\ trim (join [LF] L) = join [LF] L'.
Proof.
  intros HL. destruct L as [|l L].
  - exists [[]]. split; [discriminate|]. split; [|reflexivity].
    constructor; [|constructor]. split; [intros []|]. split; reflexivity.
  - exists (rtrim_lines (ltrim_lines (l :: L))). split; [|split].
    + apply rtrim_lines_nonempty, ltrim_lines_nonempty. discriminate.
    + apply rtrim_lines_Forall; [exact line_ok_trim_end|].
      apply ltrim_lines_Forall; [exact line_ok_trim_start | exact HL].
    + apply trim_join.
Qed.

Lemma match_atoms_cons_app (a : atom) (atoms : list atom) (s : jstr) (segs : list jstr) :
  match_atoms (a :: atoms) s = Some segs ->
  exists g rest tl, s = g ++ rest /\ segs = g :: tl /\ min_count a <= length g
    /\ Forall (fun c => cls a c = true) g /\ match_atoms atoms rest = Some tl
    /\ (if greedy a
        then forall j, length g < j <= class_prefix (cls a) s -> match_atoms atoms (skipn j s) = None
        else forall j, min_count a <= j < length g -> match_atoms atoms (skipn j s) = None).
Proof.
  intros H. destruct (match_atoms_cons_inv _ _ _ _ H) as (k & tl & Hk & Hs & Hm & Hg).
  assert (Hl : length (firstn k s) = k)
    by (apply firstn_length_le; pose proof (class_prefix_le (cls a) s); lia).
  exists (firstn k s), (skipn k s), tl. rewrite Hl.
  split; [symmetry; apply firstn_skipn|]. split; [exact Hs|]. split; [lia|].
  split; [apply Forall_firstn_le; lia|]. split; [exact Hm | exact Hg].
Qed.

Lemma star_ws_match (r : jstr) : match_atoms [star is_ws] r <> None <-> all_ws r.
Proof.
  split.
  - destruct (match_atoms [star is_ws] r) as [segs|] eqn:E; [intros _|congruence].
    apply match_atoms_sound in E.
    destruct segs as [|g [|g' segs]]; simpl in E; try contradiction.
    + destruct E as (rest & -> & _ & Hg & ->). rewrite app_nil_r. exact Hg.
    + destruct E as (rest & _ & _ & _ & []).
  - intros H. apply (match_atoms_complete _ _ [r]). simpl. exists [].
    split; [symmetry; apply app_nil_r|]. split; [lia|]. split; [exact H | reflexivity].
Qed.

Lemma skipn_len_app (x y : jstr) : skipn (length x) (x ++ y) = y.
Proof. induction x as [|c x IH]; [reflexivity | exact IH]. Qed.

(** The title captured by [(.+?)] is a valid title: [\s*] before it is greedy
    and [\s*] after it takes every trailing whitespace. *)
Lemma regexA_title_valid (line : jstr) (segs : list jstr) :
  match_atoms regexA line = Some segs -> valid_title (nth 3 segs []).
Proof.
  unfold regexA. intros H.
  destruct (match_atoms_cons_app _ _ _ _ H) as (g0 & s1 & tl0 & E0 & -> & _ & _ & H1 & _).
  destruct (match_atoms_cons_app _ _ _ _ H1) as (g1 & s2 & tl1 & E1 & -> & _ & _ & H2 & _).
  destruct (match_atoms_cons_app _ _ _ _ H2)
    as (g2 & s3 & tl2 & E2 & -> & _ & Hg2 & H3 & Hmax).
  destruct (match_atoms_cons_app _ _ _ _ H3)
    as (g3 & r & tl3 & E3 & -> & Hmin3 & Hg3 & H4 & Hlazy).
  simpl in Hmin3, Hg3, Hmax, Hlazy, Hg2. cbn [nth].
  assert (Hr : all_ws r) by (apply star_ws_match; congruence).
  split; [apply nonempty_length; lia|]. split; [exact Hg3|].
  destruct (Nat.eq_dec (length g3) 1) as [E|E]; [left; exact E|right].
  assert (Hlen : 2 <= length g3) by lia.
  split.
  - destruct g3 as [|d g'']; [simpl in Hlen; lia|]. simpl hd.
    destruct (is_ws d) eqn:Ed; [exfalso|reflexivity].
    rewrite E3 in E2.
    assert (Es2 : s2 = (g2 ++ [d]) ++ (g'' ++ r))
      by (rewrite E2, <- app_assoc; reflexivity).
    specialize (Hmax (length (g2 ++ [d]))).
    rewrite Es2, skipn_len_app in Hmax.
    assert (Hne : match_atoms [mk_atom is_dot 1 false; star is_ws] (g'' ++ r) <> None).
    { apply (match_atoms_complete _ _ [g''; r]). simpl. exists r.
      split; [reflexivity|]. split; [simpl in Hlen; lia|].
      split; [inversion Hg3; assumption|]. exists [].
      split; [symmetry; apply app_nil_r|]. split; [lia|]. split; [exact Hr | reflexivity]. }
    apply Hne, Hmax. split; [rewrite length_app; simpl; lia|].
    apply class_prefix_ge. apply Forall_app.
    split; [exact Hg2 | constructor; [exact Ed | constructor]].
  - assert (Hn3 : g3 <> []) by (apply nonempty_length; lia).
    destruct (exists_last Hn3) as (g' & c & Eg). rewrite Eg, last_last.
    destruct (is_ws c) eqn:Ec; [exfalso|reflexivity].
    rewrite Eg in Hlazy, Hlen. rewrite length_app in Hlen. simpl in Hlen.
    specialize (Hlazy (length g')).
    rewrite E3, Eg, <- app_assoc, skipn_len_app in Hlazy.
    assert (Hn : match_atoms [star is_ws] ([c] ++ r) <> None)
      by (apply star_ws_match; constructor; assumption).
    apply Hn, Hlazy. rewrite length_app. simpl. lia.
Qed.

Lemma Forall_last_elt (P : char -> Prop) (r : jstr) (d : char) :
  r <> [] -> Forall P r -> P (last r d).
Proof.
  intros Hr H. destruct (exists_last Hr) as (r' & c & ->). rewrite last_last.
  apply Forall_app in H as [_ H]. inversion H. assumption.
Qed.

(** A heading line that is not of shape (b) yields a valid title. *)
Lemma header_title_valid (l h : jstr) :
  header_of l = Some h -> ~ heading_b_shape l -> valid_title h.
Proof.
  unfold header_of. destruct (match_atoms regexA l) as [segs|] eqn:EA.
  - intros [= <-] _. pose proof (regexA_title_valid _ _ EA) as Hv.
    destruct (nth 3 segs []) as [|c t] eqn:E3; [destruct Hv as [Hn _]; congruence|].
    exact Hv.
  - destruct (match_atoms regexB l) as [segs|] eqn:EB; [|discriminate].
    intros _ Hb. exfalso. apply Hb. apply decomp_regexB. exists segs.
    apply match_atoms_sound. exact EB.
Qed.

(** [# title] is read back as the heading [title]. *)
Lemma header_of_hash_title (T : jstr) :
  valid_title T -> header_of (str "# " ++ T) = Some T.
Proof.
  intros (Hne & Hd & Hv).
  change (str "# " ++ T) with (35%N :: 32%N :: T).
  destruct (match_atoms regexA (35%N :: 32%N :: T)) as [segs|] eqn:EA.
  2:{ exfalso. apply (match_atoms_complete regexA (35%N :: 32%N :: T) [[]; [35%N]; [32%N]; T; []]);
      [|exact EA].
      simpl. exists (35%N :: 32%N :: T). split; [reflexivity|]. split; [lia|].
      split; [constructor|]. exists (32%N :: T). split; [reflexivity|]. split; [simpl; lia|].
      split; [repeat constructor|]. exists T. split; [reflexivity|]. split; [simpl; lia|].
      split; [repeat constructor|]. exists []. split; [symmetry; apply app_nil_r|].
      split; [apply nonempty_length; exact Hne|]. split; [exact Hd|].
      exists []. split; [reflexivity|]. split; [lia|]. split; constructor. }
  unfold header_of. rewrite EA. unfold regexA in EA.
  destruct (match_atoms_cons_app _ _ _ _ EA) as (g0 & s1 & tl0 & E0 & -> & _ & Hg0 & H1 & _).
  destruct (match_atoms_cons_app _ _ _ _ H1) as (g1 & s2 & tl1 & E1 & -> & Hm1 & Hg1 & H2 & _).
  destruct (match_atoms_cons_app _ _ _ _ H2)
    as (g2 & s3 & tl2 & E2 & -> & _ & Hg2 & H3 & Hmax).
  destruct (match_atoms_cons_app _ _ _ _ H3)
    as (g3 & r & tl3 & E3 & -> & Hmin3 & Hg3 & H4 & _).
  simpl in Hg0, Hm1, Hg1, Hg2, Hmax, Hmin3, Hg3. cbn [nth].
  assert (Hr : all_ws r) by (apply star_ws_match; congruence).
  (* no leading whitespace, one [#] *)
  destruct g0 as [|c0 g0]; [|injection E0 as <- _; inversion Hg0; discriminate].
  simpl in E0. subst s1.
  destruct g1 as [|c1 [|c1' g1]]; [simpl in Hm1; lia| |].
  2:{ injection E1 as <- <- _. inversion Hg1 as [|? ? _ Hg1']. inversion Hg1'. discriminate. }
  injection E1 as <- E1. subst s2.
  (* the space after [#] and nothing more *)
  assert (Hs3 : s3 = T).
  { destruct g2 as [|c2 [|c2' g2]].
    - exfalso. simpl in E2. subst s3. specialize (Hmax 1).
      assert (Hn : match_atoms [mk_atom is_dot 1 false; star is_ws] T <> None).
      { apply (match_atoms_complete _ _ [T; []]). simpl. exists [].
        split; [symmetry; apply app_nil_r|]. split; [apply nonempty_length; exact Hne|].
        split; [exact Hd|]. exists []. split; [reflexivity|]. split; [lia|].
        split; constructor. }
      apply Hn, Hmax. simpl. lia.
    - injection E2 as _ E2. symmetry. exact E2.
    - exfalso. injection E2 as _ E2. inversion Hg2 as [|? ? _ Hg2'].
      inversion Hg2' as [|? ? Hc2' _]. subst T.
      destruct Hv as [Hv|[Hv _]].
      + destruct g2; [|simpl in Hv; lia]. destruct s3; [|simpl in Hv; lia].
        destruct g3; [simpl in Hmin3; lia | discriminate].
      + simpl in Hv. congruence. }
  rewrite Hs3 in E3.
  (* the trailing [\s*] is empty *)
  assert (Hr0 : r = []).
  { destruct r as [|c0 r0]; [reflexivity|exfalso].
    destruct Hv as [Hv|[_ Hv]].
    - rewrite E3, length_app in Hv. simpl in Hv. lia.
    - assert (Hrn : c0 :: r0 <> []) by discriminate.
      destruct (exists_last Hrn) as (r' & c' & Er').
      rewrite E3, Er', app_assoc, last_last in Hv.
      rewrite Er' in Hr. apply Forall_app in Hr as [_ Hr]. inversion Hr. congruence. }
  subst r. rewrite app_nil_r in E3. subst g3.
  destruct T; [congruence | reflexivity].
Qed.

(** *** The first run *)

Lemma groups_cons (l : jstr) (ls : list jstr) :
  groups (l :: ls)
  = let '(lead, gs) := groups ls in
    match header_of l with
    | Some h => ([], (h, lead) :: gs)
    | None => (l :: lead, gs)
    end.
Proof. reflexivity. Qed.

Lemma groups_first (lines : list jstr) :
  Forall (fun l => ~ In LF l /\ ends_cr l = false /\ ~ heading_b_shape l) lines ->
  Forall line_ok (fst (groups lines))
  /\ Forall (fun hl => valid_title (fst hl) /\ Forall line_ok (snd hl))
            (snd (groups lines)).
Proof.
  induction lines as [|l ls IH]; intros H; [split; constructor|].
  inversion H as [|? ? (H1 & H2 & H3) Hls]; subst.
  destruct (IH Hls) as [Hlead Hgs].
  rewrite groups_cons. destruct (groups ls) as [lead gs].
  destruct (header_of l) as [h|] eqn:Eh; simpl in *.
  - split; [constructor|]. constructor; [|exact Hgs].
    split; [exact (header_title_valid l h Eh H3) | exact Hlead].
  - split; [|exact Hgs]. constructor; [|exact Hlead]. split; [|split]; assumption.
Qed.

Lemma valid_title_defaults : valid_title (str "Introduction") /\ valid_title (str "Front Matter").
Proof.
  split; (split; [discriminate|]); (split; [repeat constructor|]); right; split; reflexivity.
Qed.

Lemma no_regexB_shape (l : jstr) : match_atoms regexB l = None -> ~ heading_b_shape l.
Proof.
  intros H Hb. apply decomp_regexB in Hb as (segs & Hd).
  exact (match_atoms_complete _ _ _ Hd H).
Qed.

Lemma first_run (clock : nat -> jstr) (text : jstr) :
  Forall (fun l => match_atoms regexB l = None /\ ends_cr l = false) (split_lines text) ->
  Forall good_section (map tc (modularizeText clock text)).
Proof.
  intros H. rewrite modularizeText_sections. unfold modularize_sections.
  rewrite Sectioning.run_spec. cbn [sections currentHeader currentContent loop_init map app].
  assert (Hall : Forall (fun l => ~ In LF l /\ ends_cr l = false /\ ~ heading_b_shape l)
                   (split_lines text)).
  { pose proof (Forall_and (split_lines_no_lf_lines text) H) as H'.
    eapply Forall_impl; [|exact H'].
    intros l (Hl & Hb & Hc). split; [exact Hl|]. split; [exact Hc|].
    exact (no_regexB_shape l Hb). }
  destruct (groups_first _ Hall) as [Hlead Hgs].
  destruct (groups (split_lines text)) as [lead gs]. cbn [fst snd] in *.
  apply Forall_app. split.
  - unfold pending. destruct (_ || _); [|constructor].
    constructor; [|constructor]. split.
    + destruct gs; cbn [js_or fst]; apply valid_title_defaults.
    + exists lead. split; [exact Hlead | reflexivity].
  - apply Forall_map. eapply Forall_impl; [|exact Hgs].
    intros [h L] [Hv HL]. split; [exact Hv|]. exists L. split; [exact HL | reflexivity].
Qed.

(** *** The second run, on the text [fullText] gives *)

Lemma fullText_ser (secs : list PaperSection) :
  fullText secs = join [LF; LF] (map ser (map tc secs)).
Proof. unfold fullText. rewrite map_map. reflexivity. Qed.

Lemma good_good2 (p : jstr * jstr) : good_section p -> good2 p.
Proof.
  intros [Hv (L & HL & E)]. split; [exact Hv|].
  destruct (trim_join_ok L HL) as (L' & Hn & HL' & E').
  exists L'. split; [exact Hn|]. split; [exact HL'|].
  rewrite E, E'. split; [reflexivity|]. rewrite <- E'. apply trim_idem.
Qed.

Lemma good2_split (p : jstr * jstr) :
  good2 p -> split_lines (snd p) <> [] /\ Forall line_ok (split_lines (snd p))
             /\ join [LF] (split_lines (snd p)) = snd p.
Proof.
  intros [_ (L & Hn & HL & E & _)].
  assert (Hs : split_lines (snd p) = L).
  { rewrite E. apply split_lines_join; [exact Hn|].
    eapply Forall_impl; [|exact HL]. intros l (H1 & H2 & _). auto. }
  rewrite Hs. auto.
Qed.

Lemma hash_title_line (T : jstr) :
  valid_title T -> ~ In LF (str "# " ++ T) /\ ends_cr (str "# " ++ T) = false.
Proof.
  intros (Hne & Hd & _). split.
  - change (str "# " ++ T) with (35%N :: 32%N :: T).
    intros [H|[H|H]]; try discriminate.
    rewrite Forall_forall in Hd. specialize (Hd LF H). discriminate.
  - rewrite ends_cr_app by exact Hne.
    destruct (exists_last Hne) as (T' & c & ->).
    apply Forall_app in Hd as [_ Hd]. inversion Hd as [|? ? Hc _].
    unfold ends_cr. rewrite rev_app_distr. simpl.
    destruct (N.eqb _ CR) eqn:E; [|reflexivity].
    apply N.eqb_eq in E. rewrite E in Hc. vm_compute in Hc. discriminate Hc.
Qed.

Lemma split_ser_block (p : jstr * jstr) :
  good2 p -> split_lines (ser p) = (str "# " ++ fst p) :: [] :: split_lines (snd p).
Proof.
  intros Hp. destruct (hash_title_line (fst p) (proj1 Hp)) as [H1 H2].
  unfold ser, split_lines.
  replace (str "# " ++ fst p ++ [LF; LF] ++ snd p)
    with ((str "# " ++ fst p) ++ LF :: LF :: snd p) by (rewrite <- app_assoc; reflexivity).
  rewrite split_lines_app_lf by exact H2.
  rewrite split_lines_no_lf by exact H1.
  rewrite split_lines_aux_lf. reflexivity.
Qed.

Lemma ends_cr_ser (p : jstr * jstr) : good2 p -> ends_cr (ser p) = false.
Proof.
  intros [_ (L & _ & _ & _ & Ht)]. unfold ser.
  destruct (snd p) as [|c t] eqn:E.
  - rewrite app_nil_r.
    replace (str "# " ++ fst p ++ [LF; LF]) with ((str "# " ++ fst p) ++ [LF; LF])
      by (rewrite <- app_assoc; reflexivity).
    rewrite ends_cr_app by discriminate. reflexivity.
  - replace (str "# " ++ fst p ++ [LF; LF] ++ c :: t)
      with ((str "# " ++ fst p ++ [LF; LF]) ++ c :: t)
      by (rewrite <- !app_assoc; reflexivity).
    rewrite ends_cr_app by discriminate.
    rewrite <- Ht. apply ends_cr_trim_end.
Qed.

Lemma split_ser (ps : list (jstr * jstr)) :
  ps <> [] -> Forall good2 ps -> split_lines (join [LF; LF] (map ser ps)) = ser_lines ps.
Proof.
  induction ps as [|p ps IH]; intros Hn H; [congruence|].
  inversion H as [|? ? Hp Hps]; subst.
  destruct ps as [|p2 ps2].
  - exact (split_ser_block p Hp).
  - change (join [LF; LF] (map ser (p :: p2 :: ps2)))
      with (ser p ++ LF :: LF :: join [LF; LF] (map ser (p2 :: ps2))).
    change (ser_lines (p :: p2 :: ps2))
      with (((str "# " ++ fst p) :: [] :: split_lines (snd p)) ++ [] :: ser_lines (p2 :: ps2)).
    unfold split_lines at 1. rewrite split_lines_app_lf by exact (ends_cr_ser p Hp).
    fold (split_lines (ser p)). rewrite split_ser_block by exact Hp.
    rewrite split_lines_aux_lf. fold (split_lines (join [LF; LF] (map ser (p2 :: ps2)))).
    rewrite IH by (discriminate || exact Hps). reflexivity.
Qed.

Lemma groups_plain (X Y : list jstr) :
  Forall (fun l => header_of l = None) X ->
  groups (X ++ Y) = (X ++ fst (groups Y), snd (groups Y)).
Proof.
  induction X as [|x X IH]; intros H.
  - simpl. destruct (groups Y). reflexivity.
  - inversion H as [|? ? Hx HX]; subst.
    rewrite <- app_comm_cons, groups_cons, IH by exact HX. rewrite Hx. reflexivity.
Qed.

Lemma groups_ser (ps : list (jstr * jstr)) :
  ps <> [] -> Forall good2 ps -> groups (ser_lines ps) = ([], exp_groups ps).
Proof.
  induction ps as [|[T C] ps IH]; intros Hn H; [congruence|].
  inversion H as [|? ? Hp Hps]; subst.
  destruct (good2_split _ Hp) as (HLn & HL & _). cbn [snd] in HLn, HL.
  assert (HLh : Forall (fun l => header_of l = None) (split_lines C))
    by (eapply Forall_impl; [|exact HL]; intros l (_ & _ & Hl); exact Hl).
  pose proof (header_of_hash_title T (proj1 Hp)) as Hh.
  destruct ps as [|p2 ps2].
  - replace (ser_lines [(T, C)]) with ((str "# " ++ T) :: ([] :: split_lines C) ++ [])
      by (rewrite app_nil_r; reflexivity).
    rewrite groups_cons, groups_plain by (constructor; [exact header_of_nil | exact HLh]).
    rewrite Hh. cbn [fst snd groups exp_groups]. rewrite !app_nil_r. reflexivity.
  - assert (E : ser_lines ((T, C) :: p2 :: ps2)
                = (str "# " ++ T) :: (([] :: split_lines C ++ [[]]) ++ ser_lines (p2 :: ps2))).
    { change (ser_lines ((T, C) :: p2 :: ps2))
        with (((str "# " ++ T) :: [] :: split_lines C) ++ [] :: ser_lines (p2 :: ps2)).
      cbn [app]. rewrite <- app_assoc. reflexivity. }
    rewrite E, groups_cons, groups_plain.
    + rewrite IH by (discriminate || exact Hps). rewrite Hh. cbn [fst snd].
      rewrite app_nil_r. reflexivity.
    + constructor; [exact header_of_nil|]. apply Forall_app.
      split; [exact HLh | constructor; [exact header_of_nil | constructor]].
Qed.

Lemma ws_LF : all_ws [LF].
Proof. constructor; [reflexivity | constructor]. Qed.

Lemma ws_nil : all_ws [].
Proof. constructor. Qed.

Lemma block_exp (ps : list (jstr * jstr)) :
  ps <> [] -> Forall good2 ps -> map block (exp_groups ps) = ps.
Proof.
  induction ps as [|[T C] ps IH]; intros Hn H; [congruence|].
  inversion H as [|? ? Hp Hps]; subst.
  destruct (good2_split _ Hp) as (HLn & _ & Hj). cbn [snd] in HLn, Hj.
  destruct Hp as [_ (_ & _ & _ & _ & Ht)]. cbn [snd] in Ht.
  destruct ps as [|p2 ps2].
  - cbn [exp_groups map]. unfold block. cbn [fst snd].
    rewrite join_cons, Hj by exact HLn.
    replace ([] ++ [LF] ++ C) with ([LF] ++ C ++ []) by (rewrite app_nil_r; reflexivity).
    rewrite trim_ws_around, Ht by (exact ws_LF || exact ws_nil). reflexivity.
  - change (exp_groups ((T, C) :: p2 :: ps2))
      with ((T, [] :: split_lines C ++ [[]]) :: exp_groups (p2 :: ps2)).
    cbn [map]. rewrite IH by (discriminate || exact Hps).
    unfold block. cbn [fst snd].
    rewrite join_cons by (destruct (split_lines C); discriminate).
    rewrite join_app_single, Hj by exact HLn.
    replace ([] ++ [LF] ++ C ++ [LF] ++ []) with ([LF] ++ C ++ [LF])
      by (rewrite app_nil_r; reflexivity).
    rewrite trim_ws_around, Ht by exact ws_LF. reflexivity.
Qed.

Lemma second_run (clock : nat -> jstr) (ps : list (jstr * jstr)) :
  ps <> [] -> Forall good2 ps ->
  map tc (modularizeText clock (join [LF; LF] (map ser ps))) = ps.
Proof.
  intros Hn H. rewrite modularizeText_sections. unfold modularize_sections.
  rewrite Sectioning.run_spec. cbn [sections currentHeader currentContent loop_init map app].
  rewrite split_ser, groups_ser by assumption. cbn [fst snd].
  unfold pending. rewrite (proj2 (Sectioning.jstr_eqb_nil []) eq_refl).
  cbn [app length Nat.ltb negb orb]. apply block_exp; assumption.
Qed.

(** C8, counterexample: no line matches the uppercase rule, yet the content
    [x\r\ny] of the first run comes back as [x\ny]: the lone CR ends the
    line [x\r], and in [fullText] it is read as part of a CR LF break. *)
Lemma modularizeText_roundtrip_lone_cr :
  Forall (fun l => match_atoms regexB l = None) (split_lines lone_cr_text)
  /\ map (fun s => (title s, content s)) (modularizeText (fun _ => []) lone_cr_text)
     = [(str "A", str "x" ++ [CR; LF] ++ str "y")]
  /\ map (fun s => (title s, content s))
       (modularizeText (fun _ => []) (fullText (modularizeText (fun _ => []) lone_cr_text)))
     = [(str "A", str "x" ++ [LF] ++ str "y")].
Proof.
  split; [vm_compute; repeat constructor|].
  split; vm_compute; reflexivity.
Qed.

(** C8, as amended: when no input line matches the uppercase rule and no
    input line ends with a carriage return, importing the [fullText] of the
    sections gives back the same titles and contents, in the same order. *)
Theorem modularizeText_roundtrip (clock clock' : nat -> jstr) (text : jstr) :
  Forall (fun l => match_atoms regexB l = None /\ ends_cr l = false) (split_lines text) ->
  map (fun s => (title s, content s))
      (modularizeText clock' (fullText (modularizeText clock text)))
  = map (fun s => (title s, content s)) (modularizeText clock text).
Proof.
  intros H. change (fun s => (title s, content s)) with tc.
  rewrite fullText_ser. apply second_run.
  - intros E. apply map_eq_nil in E. revert E.
    rewrite modularizeText_sections. apply modularize_sections_nonempty.
  - eapply Forall_impl; [exact good_good2|]. exact (first_run clock text H).
Qed.

Lemma modularizeText_roundtrip_witness :
  Forall (fun l => match_atoms regexB l = None /\ ends_cr l = false)
         (split_lines abstract_methods_text)
  /\ map (fun s => (title s, content s))
       (modularizeText (fun _ => []) (fullText (modularizeText (fun _ => []) abstract_methods_text)))
     = map (fun s => (title s, content s)) (modularizeText (fun _ => []) abstract_methods_text).
Proof.
  assert (H : Forall (fun l => match_atoms regexB l = None /\ ends_cr l = false)
                     (split_lines abstract_methods_text))
    by (vm_compute; repeat constructor).
  split; [exact H|].
  exact (modularizeText_roundtrip (fun _ => []) (fun _ => []) abstract_methods_text H).
Defined.

(** ** More of [App]: identifiers, selection, import, references and
    highlights *)

Lemma jstr_eqb_true (a b : jstr) : jstr_eqb a b = true <-> a = b.
Proof.
  unfold jstr_eqb. destruct (list_eq_dec _ _ _); split; congruence.
Qed.

Lemma jstr_eqb_refl (a : jstr) : jstr_eqb a a = true.
Proof. apply jstr_eqb_true. reflexivity. Qed.

Lemma str_inj (s t : String.string) : str s = str t -> s = t.
Proof.
  unfold str. intros E.
  apply (f_equal (map ascii_of_N)) in E. rewrite !map_map in E.
  rewrite !(map_ext (fun x => ascii_of_N (N_of_ascii x)) (fun x => x)) in E
    by apply ascii_N_embedding.
  rewrite !map_id in E.
  rewrite <- (string_of_list_ascii_of_string s), <- (string_of_list_ascii_of_string t).
  rewrite E. reflexivity.
Qed.

Lemma digits_nilempty (d : Decimal.uint) :
  Forall (fun c => is_digit c = true) (str (NilEmpty.string_of_uint d)).
Proof. induction d; constructor; auto. Qed.

Lemma nat_to_jstr_digits (n : nat) : Forall (fun c => is_digit c = true) (nat_to_jstr n).
Proof.
  unfold nat_to_jstr.
  assert (E : NilZero.string_of_uint (Nat.to_uint n) = "0"%string
              \/ NilZero.string_of_uint (Nat.to_uint n) = NilEmpty.string_of_uint (Nat.to_uint n))
    by (destruct (Nat.to_uint n); auto).
  destruct E as [E|E]; rewrite E; [repeat constructor | apply digits_nilempty].
Qed.

Lemma to_uint_not_nil (n : nat) : Nat.to_uint n <> Decimal.Nil.
Proof.
  intros E. pose proof (Unsigned.of_to n) as H. rewrite E in H. simpl in H. subst n.
  discriminate E.
Qed.

Lemma nat_to_jstr_inj (n m : nat) : nat_to_jstr n = nat_to_jstr m -> n = m.
Proof.
  unfold nat_to_jstr. intros E. apply str_inj in E.
  apply (f_equal NilZero.uint_of_string) in E.
  rewrite !NilZero.usu in E by apply to_uint_not_nil.
  injection E as E. apply (f_equal Nat.of_uint) in E.
  rewrite !Unsigned.of_to in E. exact E.
Qed.

Lemma app_sep_inj (c : char) (a b x y : jstr) :
  ~ In c a -> ~ In c b -> a ++ c :: x = b ++ c :: y -> a = b.
Proof.
  revert b. induction a as [|u a IH]; intros [|v b] Ha Hb E; simpl in *; try reflexivity.
  - injection E as E _. subst v. tauto.
  - injection E as E _. subst u. tauto.
  - injection E as E1 E2. subst v. f_equal. apply (IH b); tauto.
Qed.

Lemma dash_not_digit (n : nat) : ~ In 45%N (nat_to_jstr n).
Proof.
  intros H. pose proof (nat_to_jstr_digits n) as D.
  rewrite Forall_forall in D. specialize (D _ H). discriminate D.
Qed.

Lemma section_id_inj (clock : nat -> jstr) (n m : nat) :
  section_id clock n = section_id clock m -> n = m.
Proof.
  unfold section_id. intros E. apply app_inv_head in E.
  assert (Hs : forall x, str "-" ++ x = 45%N :: x) by reflexivity.
  rewrite !Hs in E.
  apply nat_to_jstr_inj, (app_sep_inj 45%N _ _ _ _ (dash_not_digit n) (dash_not_digit m) E).
Qed.

Lemma section_id_prefix (clock : nat -> jstr) (n : nat) :
  prefixb (str "sec-") (section_id clock n) = true.
Proof. reflexivity. Qed.

Lemma flush_ids (clock : nat -> jstr) (st : LoopState) (d : jstr) :
  ids_inv clock st ->
  map id (fst (flush clock st d)) = map (section_id clock) (seq 0 (snd (flush clock st d))).
Proof.
  unfold ids_inv, flush. intros H.
  destruct (_ || _); cbn [fst snd]; [|exact H].
  rewrite map_app, H, seq_S, map_app. reflexivity.
Qed.

Lemma step_ids (clock : nat -> jstr) (st : LoopState) (line : jstr) :
  ids_inv clock st -> ids_inv clock (step clock st line).
Proof.
  intros H. unfold step. destruct (header_of line); [|exact H].
  pose proof (flush_ids clock st (str "Front Matter") H) as F.
  destruct (flush clock st (str "Front Matter")) as [secs n]. exact F.
Qed.

Lemma fold_step_ids (clock : nat -> jstr) (lines : list jstr) (st : LoopState) :
  ids_inv clock st -> ids_inv clock (fold_left (step clock) lines st).
Proof.
  revert st. induction lines as [|l lines IH]; intros st H; [exact H|].
  simpl. apply IH, step_ids, H.
Qed.

Lemma modularizeText_ids (clock : nat -> jstr) (text : jstr) :
  exists k, map id (modularizeText clock text) = map (section_id clock) (seq 0 k).
Proof.
  rewrite modularizeText_sections. unfold modularize_sections.
  eexists. apply flush_ids, fold_step_ids. reflexivity.
Qed.

Lemma modularizeText_id_generated (clock : nat -> jstr) (text x : jstr) :
  In x (map id (modularizeText clock text)) -> prefixb (str "sec-") x = true.
Proof.
  destruct (modularizeText_ids clock text) as [k E]. rewrite E.
  intros H. apply in_map_iff in H. destruct H as (n & <- & _).
  apply section_id_prefix.
Qed.

Lemma modularizeText_first_id (clock : nat -> jstr) (text : jstr) :
  exists s0 rest, modularizeText clock text = s0 :: rest /\ id s0 = section_id clock 0.
Proof.
  destruct (modularizeText_ids clock text) as [k E].
  pose proof (modularize_sections_nonempty clock text) as Hn.
  rewrite <- modularizeText_sections in Hn.
  destruct (modularizeText clock text) as [|s0 rest]; [contradiction|].
  exists s0, rest. split; [reflexivity|].
  destruct k; simpl in E; [discriminate|]. injection E as E _. exact E.
Qed.

Lemma initial_ids_not_generated (x : jstr) :
  In x (map id INITIAL_SECTIONS) -> prefixb (str "sec-") x = false.
Proof.
  simpl. intros [<-|[<-|[<-|[<-|[]]]]]; reflexivity.
Qed.

Lemma find_id_absent (secs : list PaperSection) (aid : jstr) :
  ~ In aid (map id secs) -> find (fun s => jstr_eqb (id s) aid) secs = None.
Proof.
  induction secs as [|s secs IH]; intros H; [reflexivity|].
  simpl in *. destruct (jstr_eqb (id s) aid) eqn:E.
  - apply jstr_eqb_true in E. tauto.
  - apply IH. tauto.
Qed.

Lemma map_edit_absent (secs : list PaperSection) (aid v : jstr) :
  ~ In aid (map id secs) ->
  map (fun s => if jstr_eqb (id s) aid then with_content s v else s) secs = secs.
Proof.
  induction secs as [|s secs IH]; intros H; [reflexivity|].
  simpl in *. destruct (jstr_eqb (id s) aid) eqn:E.
  - apply jstr_eqb_true in E. tauto.
  - rewrite IH by tauto. reflexivity.
Qed.

(** A dangling [activeSectionId]: the editor shows [sections[0]], and the
    textarea edits nothing. *)
Lemma dangling_active (st : AppState) (v : jstr) :
  ~ In (activeSectionId st) (map id (app_sections st)) ->
  activeSection st = hd_error (app_sections st) /\ set_active_content v st = st.
Proof.
  intros H. split.
  - unfold activeSection. rewrite find_id_absent by exact H. reflexivity.
  - unfold set_active_content. rewrite map_edit_absent by exact H.
    destruct st; reflexivity.
Qed.

Lemma not_generated_absent (clock : nat -> jstr) (text aid : jstr) :
  prefixb (str "sec-") aid = false -> ~ In aid (map id (modularizeText clock text)).
Proof.
  intros H Hin. apply modularizeText_id_generated in Hin. congruence.
Qed.

(** The identifiers [modularizeText] gives its sections are pairwise
    distinct, whatever [Date.now()] returns: each carries its ordinal
    [sec-<n>-...], and the ordinal is followed by a [-] no digit string
    contains. *)
Theorem modularizeText_ids_distinct (clock : nat -> jstr) (text : jstr) :
  NoDup (map id (modularizeText clock text)).
Proof.
  destruct (modularizeText_ids clock text) as [k E]. rewrite E.
  apply Injective_map_NoDup; [intros n m; apply section_id_inj | apply seq_NoDup].
Qed.

(** [handleImport] on a text that is not blank never reaches the
    [TypeError] of [newSections[0].id]: it installs the sections of
    [modularizeText], makes the first one ([sec-0-...]) active, so that
    [activeSection] resolves to it, closes and clears the dialog, and leaves
    the view mode and the selection alone. *)
Theorem handleImport_nonblank (clock : nat -> jstr) (dlg : ImportDialog) (st : AppState) :
  trim (importText dlg) <> [] ->
  exists st1,
    handleImport clock dlg st = Some (st1, mk_dialog false [])
    /\ app_sections st1 = modularizeText clock (importText dlg)
    /\ activeSectionId st1 = section_id clock 0
    /\ activeSection st1 = hd_error (app_sections st1)
    /\ isFullDocMode st1 = isFullDocMode st /\ selection st1 = selection st.
Proof.
  intros Hb.
  destruct (modularizeText_first_id clock (importText dlg)) as (s0 & rest & E & Hid).
  unfold handleImport.
  destruct (trim (importText dlg)) as [|c t] eqn:Et; [contradiction|]. simpl.
  rewrite E. eexists. split; [reflexivity|].
  simpl. repeat split; try assumption; try reflexivity.
  unfold activeSection. simpl. rewrite jstr_eqb_refl. reflexivity.
Qed.

Lemma handleImport_nonblank_witness :
  trim (importText (mk_dialog true (str "# Intro"))) <> [] /\
  exists st1,
    handleImport (fun _ => []) (mk_dialog true (str "# Intro"))
      (mk_app INITIAL_SECTIONS (str "abstract") false None None None false)
      = Some (st1, mk_dialog false [])
    /\ app_sections st1 = modularizeText (fun _ => []) (str "# Intro")
    /\ activeSectionId st1 = section_id (fun _ => []) 0
    /\ activeSection st1 = hd_error (app_sections st1)
    /\ isFullDocMode st1 = false /\ selection st1 = None.
Proof.
  assert (H : trim (importText (mk_dialog true (str "# Intro"))) <> [])
    by (vm_compute; discriminate).
  split; [exact H|].
  exact (handleImport_nonblank (fun _ => []) (mk_dialog true (str "# Intro"))
           (mk_app INITIAL_SECTIONS (str "abstract") false None None None false) H).
Defined.

(** After importing a text that is not blank, the Eraser button restores
    [INITIAL_SECTIONS] but keeps the generated active identifier: the
    editor then shows the Abstract section while typing in it edits
    nothing. *)
Theorem handleImport_then_erase (clock : nat -> jstr) (dlg dlg1 : ImportDialog)
    (st st1 : AppState) (v : jstr) :
  trim (importText dlg) <> [] ->
  handleImport clock dlg st = Some (st1, dlg1) ->
  activeSection (resetSections st1) = hd_error INITIAL_SECTIONS
  /\ set_active_content v (resetSections st1) = resetSections st1.
Proof.
  intros Hb Hi.
  destruct (handleImport_nonblank clock dlg st Hb) as (st1' & E & _ & Hid & _).
  rewrite Hi in E. injection E as <- _.
  apply (dangling_active (resetSections st1) v).
  simpl. intros Hin. apply initial_ids_not_generated in Hin.
  rewrite Hid, section_id_prefix in Hin. discriminate.
Qed.

Lemma handleImport_then_erase_witness :
  exists st1 dlg1,
    trim (importText (mk_dialog true (str "# Intro"))) <> []
    /\ handleImport (fun _ => []) (mk_dialog true (str "# Intro"))
         (mk_app INITIAL_SECTIONS (str "abstract") false None None None false)
       = Some (st1, dlg1)
    /\ activeSection (resetSections st1) = hd_error INITIAL_SECTIONS
    /\ set_active_content (str "x") (resetSections st1) = resetSections st1.
Proof.
  eexists; eexists.
  assert (H : trim (importText (mk_dialog true (str "# Intro"))) <> [])
    by (vm_compute; discriminate).
  assert (Hi : handleImport (fun _ => []) (mk_dialog true (str "# Intro"))
         (mk_app INITIAL_SECTIONS (str "abstract") false None None None false)
       = Some (mk_app (modularizeText (fun _ => []) (str "# Intro"))
                 (section_id (fun _ => []) 0) false None None None false,
               mk_dialog false [])) by (vm_compute; reflexivity).
  split; [exact H|]. split; [exact Hi|].
  exact (handleImport_then_erase (fun _ => []) _ _ _ _ (str "x") H Hi).
Defined.

(** [handleAnonymize] in the full-document view re-sections the paper
    with fresh [sec-...] identifiers: an active identifier not of that form
    (such as the initial [abstract]) then matches no section, so back in the
    single-section view the editor shows [sections[0]] and edits to it are
    lost. *)
Theorem handleAnonymize_full_dangling (clock : nat -> jstr) (newText v : jstr) (st : AppState) :
  isFullDocMode st = true ->
  prefixb (str "sec-") (activeSectionId st) = false ->
  let st2 := toggleFullDocMode (handleAnonymize clock newText st) in
  activeSection st2 = hd_error (app_sections st2) /\ set_active_content v st2 = st2.
Proof.
  intros Hf Hp st2. apply dangling_active.
  unfold st2, handleAnonymize. rewrite Hf. simpl.
  apply not_generated_absent. exact Hp.
Qed.

Lemma handleAnonymize_full_dangling_witness :
  isFullDocMode (mk_app INITIAL_SECTIONS (str "abstract") true None None None false) = true
  /\ prefixb (str "sec-") (activeSectionId (mk_app INITIAL_SECTIONS (str "abstract") true None None None false)) = false
  /\ (let st2 := toggleFullDocMode (handleAnonymize (fun _ => []) (str "# Abstract")
                    (mk_app INITIAL_SECTIONS (str "abstract") true None None None false)) in
      activeSection st2 = hd_error (app_sections st2) /\ set_active_content (str "x") st2 = st2).
Proof.
  assert (H1 : isFullDocMode (mk_app INITIAL_SECTIONS (str "abstract") true None None None false) = true)
    by reflexivity.
  assert (H2 : prefixb (str "sec-") (activeSectionId (mk_app INITIAL_SECTIONS (str "abstract") true None None None false)) = false)
    by reflexivity.
  split; [exact H1|]. split; [exact H2|].
  exact (handleAnonymize_full_dangling (fun _ => []) (str "# Abstract") (str "x") _ H1 H2).
Defined.

(** The same holds for [updateDocumentAtSelection] on a selection
    without section in the full-document view (micro-edits and citations),
    whether or not it resets the selection. *)
Theorem updateDocumentAtSelection_full_dangling (clock : nat -> jstr) (seg v : jstr)
    (skip : bool) (sel : Selection) (st : AppState) :
  isFullDocMode st = true -> selection st = Some sel -> falsy (sel_sectionId sel) = true ->
  prefixb (str "sec-") (activeSectionId st) = false ->
  let st2 := toggleFullDocMode (updateDocumentAtSelection clock seg skip st) in
  activeSection st2 = hd_error (app_sections st2) /\ set_active_content v st2 = st2.
Proof.
  intros Hf Hs Hn Hp st2. apply dangling_active.
  unfold st2, updateDocumentAtSelection. rewrite Hs, Hf, Hn.
  destruct skip; simpl; apply not_generated_absent; exact Hp.
Qed.

Lemma updateDocumentAtSelection_full_dangling_witness :
  isFullDocMode full_sel_state = true
  /\ selection full_sel_state = Some (mk_selection (str "Abstract") 2 10 None)
  /\ falsy (sel_sectionId (mk_selection (str "Abstract") 2 10 None)) = true
  /\ prefixb (str "sec-") (activeSectionId full_sel_state) = false
  /\ (let st2 := toggleFullDocMode
                   (updateDocumentAtSelection (fun _ => []) (str "Summary") false full_sel_state) in
      activeSection st2 = hd_error (app_sections st2) /\ set_active_content (str "x") st2 = st2).
Proof.
  assert (H1 : isFullDocMode full_sel_state = true) by reflexivity.
  assert (H2 : selection full_sel_state = Some (mk_selection (str "Abstract") 2 10 None))
    by reflexivity.
  assert (H3 : falsy (sel_sectionId (mk_selection (str "Abstract") 2 10 None)) = true)
    by reflexivity.
  assert (H4 : prefixb (str "sec-") (activeSectionId full_sel_state) = false) by reflexivity.
  split; [exact H1|]. split; [exact H2|]. split; [exact H3|]. split; [exact H4|].
  exact (updateDocumentAtSelection_full_dangling (fun _ => []) (str "Summary") (str "x")
           false _ _ H1 H2 H3 H4).
Defined.

Lemma nonws_app (a b : jstr) : nonws_count (a ++ b) = nonws_count a + nonws_count b.
Proof. unfold nonws_count. rewrite filter_app, length_app. reflexivity. Qed.

Lemma nonws_all_ws (w : jstr) : all_ws w -> nonws_count w = 0.
Proof. induction 1 as [|c w Hc _ IH]; [reflexivity|]. unfold nonws_count in *. simpl. rewrite Hc. exact IH. Qed.

Lemma nonws_le (s : jstr) : nonws_count s <= length s.
Proof. unfold nonws_count. induction s as [|c s IH]; simpl; [lia|]. destruct (negb (is_ws c)); simpl; lia. Qed.

Lemma nonws_trim (s : jstr) : nonws_count (trim s) = nonws_count s.
Proof.
  unfold trim.
  destruct (trim_start_split s) as (w1 & H1 & E1).
  destruct (trim_end_split (trim_start s)) as (w2 & H2 & E2).
  assert (A : nonws_count s = nonws_count (trim_start s))
    by (rewrite E1 at 1; rewrite nonws_app, (nonws_all_ws w1 H1); reflexivity).
  assert (B : nonws_count (trim_start s) = nonws_count (trim_end (trim_start s)))
    by (rewrite E2 at 1; rewrite nonws_app, (nonws_all_ws w2 H2); lia).
  lia.
Qed.

(** [selectedText.trim().length > 1] holds exactly when the text has two
    characters that are not white space. *)
Lemma trim_length_gt1 (s : jstr) : 1 < length (trim s) <-> 2 <= nonws_count s.
Proof.
  split.
  - intros H. rewrite <- nonws_trim. unfold trim in *.
    set (y := trim_start s) in *.
    destruct (trim_end_last y) as [E|(r & e & E & He)]; rewrite E in *; [simpl in H; lia|].
    destruct r as [|c m]; [simpl in H; lia|].
    destruct (trim_end_split y) as (w & _ & Ey). rewrite E in Ey.
    destruct (trim_start_head s) as [Es|(c' & r' & Es & Hc')]; fold y in Es;
      rewrite Es in Ey; [discriminate|].
    injection Ey as <- _.
    unfold nonws_count. simpl. rewrite Hc'. simpl. rewrite filter_app, length_app. simpl.
    rewrite He. simpl. lia.
  - intros H. rewrite <- nonws_trim in H. pose proof (nonws_le (trim s)). lia.
Qed.

Lemma js_substring_mid (s : jstr) (a b : nat) :
  a <= b <= length s -> js_substring s a b = firstn (b - a) (skipn a s).
Proof.
  intros [H1 H2]. unfold js_substring.
  rewrite (Nat.min_l a) by lia. rewrite (Nat.min_l b) by lia.
  rewrite Nat.min_l by lia. rewrite Nat.max_r by lia. reflexivity.
Qed.

Lemma firstn_join (c : jstr) (a b : nat) :
  a <= b <= length c -> firstn a c ++ firstn (b - a) (skipn a c) = firstn b c.
Proof.
  intros [H1 H2]. rewrite <- (firstn_skipn a c) at 3.
  rewrite firstn_app, firstn_firstn, length_firstn.
  rewrite (Nat.min_r b a), (Nat.min_l a (length c)) by lia. reflexivity.
Qed.

Lemma map_id_absent (g : PaperSection -> PaperSection) (secs : list PaperSection) (aid : jstr) :
  ~ In aid (map id secs) ->
  map (fun t => if jstr_eqb (id t) aid then g t else t) secs = secs.
Proof.
  induction secs as [|s secs IH]; intros H; [reflexivity|].
  simpl in *. destruct (jstr_eqb (id s) aid) eqn:E.
  - apply jstr_eqb_true in E. tauto.
  - rewrite IH by tauto. reflexivity.
Qed.

Lemma find_first_id (pre post : list PaperSection) (s : PaperSection) (aid : jstr) :
  ~ In aid (map id pre) -> id s = aid ->
  find (fun t => jstr_eqb (id t) aid) (pre ++ s :: post) = Some s.
Proof.
  intros H <-. induction pre as [|t pre IH]; simpl in *.
  - rewrite jstr_eqb_refl. reflexivity.
  - destruct (jstr_eqb (id t) (id s)) eqn:E.
    + apply jstr_eqb_true in E. tauto.
    + apply IH. tauto.
Qed.

(** [handleSelect] never touches the sections. When it leaves the
    tooltip shown, it has recorded a selection with the textarea's offsets
    and section whose text has at least two characters that are not white
    space ([trim().length > 1]); when the tooltip ends hidden, the previous
    selection is kept, not cleared. *)
Theorem handleSelect_tooltip (start end_ : nat) (sid : option jstr) (st st' : AppState) :
  handleSelect start end_ sid st = Some st' ->
  app_sections st' = app_sections st
  /\ (showMicroEditTooltip st' = true ->
        start <> end_
        /\ exists t, selection st' = Some (mk_selection t start end_ sid) /\ 2 <= nonws_count t)
  /\ (showMicroEditTooltip st' = false -> selection st' = selection st).
Proof.
  unfold handleSelect. intros H.
  destruct (Nat.eqb start end_) eqn:Ese; simpl in H.
  - destruct (showMicroEditTooltip st) eqn:Et; injection H as <-; simpl;
      repeat split; try reflexivity; try congruence.
  - apply Nat.eqb_neq in Ese.
    destruct (match sid with
              | Some ((_ :: _) as sid0) => _
              | _ => _ end) as [tc|]; [|discriminate].
    destruct (Nat.ltb 1 (length (trim (js_substring tc start end_)))) eqn:Elt;
      injection H as <-; simpl; repeat split; try reflexivity; try congruence.
    eexists. split; [reflexivity|]. apply trim_length_gt1, Nat.ltb_lt, Elt.
Qed.

Lemma handleSelect_tooltip_witness :
  exists st',
    handleSelect 0 12 None select_state = Some st'
    /\ app_sections st' = app_sections select_state
    /\ (showMicroEditTooltip st' = true ->
          0 <> 12
          /\ exists t, selection st' = Some (mk_selection t 0 12 None) /\ 2 <= nonws_count t)
    /\ (showMicroEditTooltip st' = false -> selection st' = selection select_state).
Proof.
  eexists.
  assert (H : handleSelect 0 12 None select_state = Some
    (mk_app INITIAL_SECTIONS (str "abstract") false None None
       (Some (mk_selection (str "Artificial I") 0 12 None)) true))
    by (vm_compute; reflexivity).
  split; [exact H|]. exact (handleSelect_tooltip 0 12 None select_state _ H).
Defined.

(** Selecting a range of a section by its identifier and then citing
    (the composition [handleSelect] then [handleCiteAtSelection]) puts
    [" " + marker] right after the selected range of that section only; no
    alert is raised, and the selection is kept with the tooltip shown. *)
Theorem handleSelect_then_cite (clock : nat -> jstr) (st : AppState)
    (pre post : list PaperSection) (s : PaperSection) (start end_ : nat) (marker : jstr) :
  app_sections st = pre ++ s :: post ->
  ~ In (id s) (map id pre) -> ~ In (id s) (map id post) -> id s <> [] ->
  start < end_ <= length (content s) ->
  2 <= nonws_count (firstn (end_ - start) (skipn start (content s))) ->
  exists st1,
    handleSelect start end_ (Some (id s)) st = Some st1
    /\ handleCiteAtSelection clock marker st1 =
       (mk_app (pre ++ with_content s (firstn end_ (content s) ++ str " " ++ marker
                                        ++ skipn end_ (content s)) :: post)
          (activeSectionId st) (isFullDocMode st) (analysisResult st) (previewingIssue st)
          (Some (mk_selection (firstn (end_ - start) (skipn start (content s)))
                   start end_ (Some (id s))))
          true,
        false).
Proof.
  intros Hs Hpre Hpost Hid [H1 H2] Hcount.
  assert (Hsub : js_substring (content s) start end_
                 = firstn (end_ - start) (skipn start (content s)))
    by (apply js_substring_mid; lia).
  assert (Hne : Nat.eqb start end_ = false) by (apply Nat.eqb_neq; lia).
  assert (Hlt : Nat.ltb 1 (length (trim (firstn (end_ - start) (skipn start (content s))))) = true)
    by (apply Nat.ltb_lt, trim_length_gt1, Hcount).
  assert (Hor : js_or (content s) [] = content s) by (destruct (content s); reflexivity).
  destruct (id s) as [|i0 ir] eqn:Eid; [contradiction|].
  eexists. split.
  - unfold handleSelect. rewrite Hne. simpl negb. cbv iota beta.
    rewrite Hs, (find_first_id pre post s (i0 :: ir) Hpre Eid), Hor, Hsub, Hlt.
    reflexivity.
  - unfold handleCiteAtSelection, updateDocumentAtSelection. simpl.
    rewrite andb_false_r. unfold splice_in_section.
    rewrite map_app. simpl. rewrite Eid, jstr_eqb_refl.
    rewrite (map_id_absent _ pre), (map_id_absent _ post) by assumption.
    unfold splice_at.
    rewrite js_substring_prefix by lia. rewrite js_substring_from_suffix by lia.
    rewrite app_assoc, app_assoc, firstn_join by lia.
    rewrite <- !app_assoc. reflexivity.
Qed.

Lemma handleSelect_then_cite_witness :
  exists st1,
    handleSelect 0 12 (Some (str "intro")) cite_state = Some st1
    /\ handleCiteAtSelection (fun _ => []) (str "[1]") st1 =
       (mk_app ([nth 0 INITIAL_SECTIONS (mk_section [] [] [])]
                ++ with_content (nth 1 INITIAL_SECTIONS (mk_section [] [] []))
                     (firstn 12 (content (nth 1 INITIAL_SECTIONS (mk_section [] [] [])))
                      ++ str " " ++ str "[1]"
                      ++ skipn 12 (content (nth 1 INITIAL_SECTIONS (mk_section [] [] []))))
                :: skipn 2 INITIAL_SECTIONS)
          (str "abstract") true None None
          (Some (mk_selection
                   (firstn (12 - 0) (skipn 0 (content (nth 1 INITIAL_SECTIONS (mk_section [] [] [])))))
                   0 12 (Some (id (nth 1 INITIAL_SECTIONS (mk_section [] [] []))))))
          true,
        false).
Proof.
  apply (handleSelect_then_cite (fun _ => []) cite_state
           [nth 0 INITIAL_SECTIONS (mk_section [] [] [])]
           (skipn 2 INITIAL_SECTIONS)
           (nth 1 INITIAL_SECTIONS (mk_section [] [] [])) 0 12 (str "[1]")).
  - reflexivity.
  - simpl. intros [E|[]]. discriminate E.
  - simpl. intros [E|[E|[]]]; discriminate E.
  - discriminate.
  - split; [lia | vm_compute; lia].
  - vm_compute. lia.
Defined.

Lemma index_of_le (s p : jstr) (k : nat) : index_of s p = Some k -> k <= length s.
Proof.
  revert k. induction s as [|c s IH]; intros k; simpl.
  - destruct (prefixb p []); intros H; inversion H; lia.
  - destruct (prefixb p (c :: s)); intros H; [injection H as <-; lia|].
    destruct (index_of s p) as [k'|]; simpl in H; [|discriminate].
    injection H as <-. specialize (IH k' eq_refl). lia.
Qed.

Lemma index_of_spec (s p : jstr) (k : nat) :
  index_of s p = Some k ->
  prefixb p (skipn k s) = true /\ forall j, j < k -> prefixb p (skipn j s) = false.
Proof.
  revert k. induction s as [|c s IH]; intros k; simpl.
  - destruct (prefixb p []) eqn:E; intros H; [|discriminate]. injection H as <-.
    split; [exact E | intros j Hj; lia].
  - destruct (prefixb p (c :: s)) eqn:E; intros H.
    + injection H as <-. split; [exact E | intros j Hj; lia].
    + destruct (index_of s p) as [k'|]; simpl in H; [|discriminate].
      injection H as <-. destruct (IH k' eq_refl) as [H1 H2].
      split; [exact H1|]. intros [|j] Hj; [exact E|]. simpl. apply H2. lia.
Qed.

Lemma prefixb_app (p s : jstr) : prefixb p s = true -> s = p ++ skipn (length p) s.
Proof.
  revert s. induction p as [|c p IH]; intros [|d s] H; simpl in *; try reflexivity; try discriminate.
  apply andb_true_iff in H. destruct H as [H1 H2]. apply N.eqb_eq in H1. subst d.
  f_equal. apply IH, H2.
Qed.

Lemma index_found (c sn : jstr) (pos : nat) :
  index_of c sn = Some pos ->
  c = firstn pos c ++ sn ++ skipn (pos + length sn) c /\ pos + length sn <= length c.
Proof.
  intros H. pose proof (index_of_le _ _ _ H) as Hle.
  destruct (index_of_spec _ _ _ H) as [Hp _].
  apply prefixb_app in Hp. rewrite skipn_skipn in Hp.
  split.
  - rewrite <- (firstn_skipn pos c) at 1. rewrite Hp at 1. do 3 f_equal. lia.
  - apply (f_equal (@List.length _)) in Hp. rewrite length_skipn, length_app in Hp. lia.
Qed.

Lemma highlight_found (c sn : jstr) (iss : AnalysisIssue) (pos : nat) :
  snippet iss = Some sn -> sn <> [] -> index_of c sn = Some pos ->
  highlight c (Some iss) = Marked (firstn pos c) sn (skipn (pos + length sn) c).
Proof.
  intros Hs Hne Hi. destruct (index_found _ _ _ Hi) as [Ec Hl].
  unfold highlight. rewrite Hs. destruct sn as [|x sn']; [contradiction|].
  unfold includes. rewrite Hi.
  rewrite js_substring_prefix by lia. rewrite js_substring_mid by lia.
  rewrite js_substring_from_suffix by lia. f_equal.
  destruct (index_of_spec _ _ _ Hi) as [Hp _]. apply prefixb_app in Hp.
  rewrite Hp. replace (pos + length (x :: sn') - pos) with (length (x :: sn')) by lia.
  rewrite firstn_app, Nat.sub_diag, firstn_all. simpl. rewrite app_nil_r. reflexivity.
Qed.

(** The highlight backdrop of [renderHighlights] always spells the active
    content: plain when there is no issue, no snippet, or the snippet does
    not occur; otherwise its three pieces concatenate back to it, the mark
    is the snippet, and the mark sits at the first occurrence. *)
Theorem highlight_backdrop (c : jstr) (i : option AnalysisIssue) :
  backdrop_text (highlight c i) = c
  /\ match highlight c i with
     | Plain _ =>
         forall iss sn, i = Some iss -> snippet iss = Some sn -> sn <> [] -> includes c sn = false
     | Marked before mark after =>
         exists iss, i = Some iss /\ snippet iss = Some mark /\ mark <> []
         /\ forall k, k < length before -> prefixb mark (skipn k c) = false
     end.
Proof.
  destruct i as [iss|].
  2:{ split; [reflexivity|]. intros iss sn H. discriminate H. }
  destruct (snippet iss) as [[|x sn']|] eqn:Es.
  - unfold highlight. rewrite Es. split; [reflexivity|].
    intros iss' sn H. injection H as <-. rewrite Es. intros H. injection H as <-. tauto.
  - destruct (includes c (x :: sn')) eqn:Ei.
    + unfold includes in Ei. destruct (index_of c (x :: sn')) as [pos|] eqn:Ep; [|discriminate].
      rewrite (highlight_found c (x :: sn') iss pos Es ltac:(discriminate) Ep).
      destruct (index_found _ _ _ Ep) as [Ec Hl]. split; [symmetry; exact Ec|].
      exists iss. split; [reflexivity|]. split; [exact Es|]. split; [discriminate|].
      intros k Hk. rewrite length_firstn in Hk.
      apply (proj2 (index_of_spec _ _ _ Ep)). lia.
    + unfold highlight. rewrite Es, Ei. split; [reflexivity|].
      intros iss' sn H. injection H as <-. rewrite Es. intros H _. injection H as <-. exact Ei.
  - unfold highlight. rewrite Es. split; [reflexivity|].
    intros iss' sn H. injection H as <-. rewrite Es. discriminate.
Qed.

(** In the full-document view, [handlePreviewFix] either changes nothing
    or previews an issue whose snippet [renderHighlights] then marks. *)
Theorem handlePreviewFix_full_marked (issue : AnalysisIssue) (st : AppState) :
  isFullDocMode st = true ->
  handlePreviewFix issue st = st
  \/ (previewingIssue (handlePreviewFix issue st) = Some issue
      /\ exists sn before after, snippet issue = Some sn
         /\ renderHighlights (handlePreviewFix issue st) = Some (Marked before sn after)).
Proof.
  intros Hf. unfold handlePreviewFix.
  destruct (snippet issue) as [[|x sn']|] eqn:Es; try (left; reflexivity).
  destruct (index_of (fullText (app_sections st)) (x :: sn')) as [pos|] eqn:Ei;
    [right | left; reflexivity].
  split; [reflexivity|].
  do 3 eexists. split; [reflexivity|].
  unfold renderHighlights. cbn [isFullDocMode app_sections previewingIssue].
  rewrite Hf. cbn [option_map].
  rewrite (highlight_found _ (x :: sn') issue pos Es ltac:(discriminate) Ei).
  reflexivity.
Qed.

Lemma handlePreviewFix_full_marked_witness :
  isFullDocMode preview_state = true
  /\ (handlePreviewFix preview_issue preview_state = preview_state
      \/ (previewingIssue (handlePreviewFix preview_issue preview_state) = Some preview_issue
          /\ exists sn before after, snippet preview_issue = Some sn
             /\ renderHighlights (handlePreviewFix preview_issue preview_state)
                = Some (Marked before sn after))).
Proof.
  assert (H : isFullDocMode preview_state = true) by reflexivity.
  split; [exact H | exact (handlePreviewFix_full_marked preview_issue preview_state H)].
Defined.

Lemma highlight_backdrop_witness :
  backdrop_text (highlight (str "We utilize a novel framework.") (Some preview_issue))
    = str "We utilize a novel framework."
  /\ match highlight (str "We utilize a novel framework.") (Some preview_issue) with
     | Plain _ =>
         forall iss sn, Some preview_issue = Some iss -> snippet iss = Some sn -> sn <> [] ->
         includes (str "We utilize a novel framework.") sn = false
     | Marked before mark after =>
         exists iss, Some preview_issue = Some iss /\ snippet iss = Some mark /\ mark <> []
         /\ forall k, k < length before ->
            prefixb mark (skipn k (str "We utilize a novel framework.")) = false
     end.
Proof. exact (highlight_backdrop (str "We utilize a novel framework.") (Some preview_issue)). Defined.

Lemma list_set_length {A : Type} (l : list A) (i : nat) (x : A) :
  length (list_set l i x) = length l.
Proof. revert i. induction l as [|y l IH]; intros [|i]; simpl; auto. Qed.

Lemma nth_list_set {A : Type} (l : list A) (i : nat) (x d : A) :
  i < length l -> nth i (list_set l i x) d = x.
Proof.
  revert i. induction l as [|y l IH]; intros [|i] H; simpl in *; try lia; auto.
  apply IH. lia.
Qed.

Lemma list_set_twice {A : Type} (l : list A) (i : nat) (x y : A) :
  list_set (list_set l i x) i y = list_set l i y.
Proof. revert i. induction l as [|z l IH]; intros [|i]; simpl; f_equal; auto. Qed.

Lemma list_set_last {A : Type} (l : list A) (y x : A) :
  list_set (l ++ [y]) (length l) x = l ++ [x].
Proof. induction l as [|z l IH]; simpl; f_equal; auto. Qed.

Lemma find_index_lt {A : Type} (p : A -> bool) (l : list A) (i : nat) :
  find_index p l = Some i -> i < length l.
Proof.
  revert i. induction l as [|y l IH]; intros i H; simpl in *; [discriminate|].
  destruct (p y); [injection H as <-; lia|].
  destruct (find_index p l) as [j|]; simpl in H; [|discriminate].
  injection H as <-. specialize (IH j eq_refl). lia.
Qed.

Lemma find_index_list_set {A : Type} (p : A -> bool) (l : list A) (i : nat) (x d : A) :
  p x = p (nth i l d) -> find_index p (list_set l i x) = find_index p l.
Proof.
  revert i. induction l as [|y l IH]; intros [|i] H; simpl in *; auto.
  - rewrite H. reflexivity.
  - rewrite (IH i H). reflexivity.
Qed.

Lemma find_index_last {A : Type} (p : A -> bool) (l : list A) (y : A) :
  find_index p l = None -> p y = true -> find_index p (l ++ [y]) = Some (length l).
Proof.
  intros H Hy. induction l as [|z l IH]; simpl in *.
  - rewrite Hy. reflexivity.
  - destruct (p z); [discriminate|].
    destruct (find_index p l); [discriminate|]. rewrite IH by reflexivity. reflexivity.
Qed.

Lemma trimmed_parts (s : jstr) : trim s = s -> trim_start s = s /\ trim_end s = s.
Proof.
  intros H.
  destruct (trim_start_split s) as (w1 & _ & E1).
  destruct (trim_end_split (trim_start s)) as (w2 & _ & E2).
  unfold trim in H. rewrite H in E2.
  assert (L : length w1 = 0 /\ length w2 = 0).
  { pose proof (f_equal (@List.length _) E1) as L1.
    pose proof (f_equal (@List.length _) E2) as L2.
    rewrite length_app in L1, L2. lia. }
  destruct w1, w2; simpl in L; try lia.
  rewrite app_nil_r in E2. split; [exact E2|]. rewrite E2 in H. exact H.
Qed.

Lemma trim_start_app_kept (a x : jstr) :
  trim_start a = a -> a <> [] -> trim_start (a ++ x) = a ++ x.
Proof.
  intros H Hn. rewrite trim_start_app, H. destruct a; [contradiction | reflexivity].
Qed.

Lemma trim_end_app_kept (x b : jstr) :
  trim_end b = b -> b <> [] -> trim_end (x ++ b) = x ++ b.
Proof.
  unfold trim_end. intros H Hn.
  assert (Hr : trim_start (rev b) = rev b)
    by (rewrite <- (rev_involutive (trim_start (rev b))), H; reflexivity).
  rewrite rev_app_distr, trim_start_app, Hr.
  destruct (rev b) as [|c r] eqn:Er.
  - apply (f_equal (@rev _)) in Er. rewrite rev_involutive in Er. contradiction.
  - rewrite rev_app_distr, rev_involutive, <- Er, rev_involutive. reflexivity.
Qed.

Lemma trim_sep (a m b : jstr) :
  trim a = a -> a <> [] -> trim b = b -> b <> [] -> trim (a ++ m ++ b) = a ++ m ++ b.
Proof.
  intros Ha Hna Hb Hnb. unfold trim.
  rewrite (trim_start_app_kept a) by (try apply trimmed_parts; assumption).
  rewrite app_assoc. apply trim_end_app_kept; [apply trimmed_parts|]; assumption.
Qed.

Lemma add_reference_found (to_lower : jstr -> jstr) (secs : list PaperSection) (i : nat) (r : jstr) :
  find_index (reference_title to_lower) secs = Some i ->
  add_reference to_lower r secs =
  list_set secs i
    (with_content (nth i secs no_section)
       (trim (content (nth i secs no_section))
        ++ (if falsy (Some (trim (content (nth i secs no_section)))) then [] else [LF]) ++ r)).
Proof. intros H. unfold add_reference. unfold reference_title in H. rewrite H. reflexivity. Qed.

Lemma join_lead (t : jstr) (rest : list jstr) :
  t <> [] -> match t with [] => rest | c :: l => (c :: l) :: rest end = t :: rest.
Proof. destruct t; [contradiction | reflexivity]. Qed.

Lemma appended_content (c r : jstr) (rest : list jstr) :
  r <> [] -> trim r = r ->
  let c1 := trim c ++ (if falsy (Some (trim c)) then [] else [LF]) ++ r in
  trim c1 = c1 /\ c1 <> []
  /\ join [LF] (c1 :: rest) = join [LF] (match trim c with [] => r :: rest | t => t :: r :: rest end).
Proof.
  intros Hn Ht c1. unfold c1.
  pose proof (trim_idem c) as Hi.
  destruct (trim c) as [|x t] eqn:Ec.
  - simpl. split; [exact Ht|]. split; [exact Hn | reflexivity].
  - cbn [falsy]. cbv iota.
    split; [exact (trim_sep (x :: t) [LF] r Hi ltac:(discriminate) Ht Hn)|].
    split; [discriminate|].
    destruct rest as [|y rest]; [reflexivity|].
    cbn [join]. rewrite <- !app_assoc. reflexivity.
Qed.

Lemma fold_add_found (to_lower : jstr -> jstr) (refs : list jstr) :
  forall (secs : list PaperSection) (i : nat),
  Forall (fun r => r <> [] /\ trim r = r) refs ->
  find_index (reference_title to_lower) secs = Some i ->
  fold_left (fun acc r => add_reference to_lower r acc) refs secs =
  match refs with
  | [] => secs
  | _ => list_set secs i
           (with_content (nth i secs no_section)
              (join [LF] (match trim (content (nth i secs no_section)) with
                          | [] => refs
                          | t => t :: refs
                          end)))
  end.
Proof.
  induction refs as [|r rest IH]; intros secs i Hok Hf; [reflexivity|].
  inversion Hok as [|? ? [Hn Ht] Hrest]; subst.
  cbn [fold_left]. rewrite (add_reference_found to_lower secs i r Hf).
  pose proof (find_index_lt _ _ _ Hf) as Hlt.
  set (s := nth i secs no_section).
  destruct (appended_content (content s) r rest Hn Ht) as (Ht1 & Hn1 & Hj).
  set (c1 := trim (content s) ++ (if falsy (Some (trim (content s))) then [] else [LF]) ++ r)
    in *.
  assert (Hf1 : find_index (reference_title to_lower) (list_set secs i (with_content s c1))
                = Some i)
    by (rewrite (find_index_list_set _ _ _ _ no_section) by reflexivity; exact Hf).
  rewrite (IH _ i Hrest Hf1).
  destruct rest as [|y rest'].
  - f_equal. f_equal. exact Hj.
  - rewrite nth_list_set by exact Hlt. cbn [content with_content].
    rewrite Ht1, join_lead by exact Hn1. rewrite list_set_twice. unfold with_content. cbn [id title]. apply (f_equal (fun x => list_set secs i (mk_section (id s) (title s) x))). exact Hj.
Qed.

Lemma fold_handleAddReference (to_lower : jstr -> jstr) (refs : list jstr) (st : AppState) :
  app_sections (fold_left (fun acc r => handleAddReference to_lower r acc) refs st)
  = fold_left (fun acc r => add_reference to_lower r acc) refs (app_sections st).
Proof.
  revert st. induction refs as [|r refs IH]; intros st; [reflexivity|].
  simpl. rewrite IH. reflexivity.
Qed.

(** [handleAddReference] run over a list of references (the [forEach] of
    [handleSuggestCitations]) when some title contains [reference] once
    lowercased: the first such section alone changes, its content becomes
    its trimmed old content (if not empty) and the references, joined by
    line feeds, for references that are non-empty and trimmed. *)
Theorem handleAddReference_existing (to_lower : jstr -> jstr) (refs : list jstr)
    (st : AppState) (i : nat) :
  Forall (fun r => r <> [] /\ trim r = r) refs -> refs <> [] ->
  find_index (fun s => includes (to_lower (title s)) (str "reference")) (app_sections st)
    = Some i ->
  app_sections (fold_left (fun acc r => handleAddReference to_lower r acc) refs st)
  = list_set (app_sections st) i
      (with_content (nth i (app_sections st) no_section)
         (join [LF] (match trim (content (nth i (app_sections st) no_section)) with
                     | [] => refs
                     | t => t :: refs
                     end))).
Proof.
  intros Hok Hne Hf. rewrite fold_handleAddReference.
  rewrite (fold_add_found to_lower refs _ i Hok Hf).
  destruct refs; [contradiction | reflexivity].
Qed.

Lemma handleAddReference_existing_witness :
  Forall (fun r => r <> [] /\ trim r = r) [str "Doe 2020."; str "Roe 2021."]
  /\ find_index (fun s => includes (ascii_lower (title s)) (str "reference"))
       (app_sections refs_state) = Some 3
  /\ app_sections (fold_left (fun acc r => handleAddReference ascii_lower r acc)
                    [str "Doe 2020."; str "Roe 2021."] refs_state)
     = list_set (app_sections refs_state) 3
         (with_content (nth 3 (app_sections refs_state) no_section)
            (join [LF] (match trim (content (nth 3 (app_sections refs_state) no_section)) with
                        | [] => [str "Doe 2020."; str "Roe 2021."]
                        | t => t :: [str "Doe 2020."; str "Roe 2021."]
                        end))).
Proof.
  assert (H1 : Forall (fun r => r <> [] /\ trim r = r) [str "Doe 2020."; str "Roe 2021."])
    by (repeat constructor; try discriminate; vm_compute; reflexivity).
  assert (H2 : find_index (fun s => includes (ascii_lower (title s)) (str "reference"))
                 (app_sections refs_state) = Some 3) by (vm_compute; reflexivity).
  split; [exact H1|]. split; [exact H2|].
  exact (handleAddReference_existing ascii_lower _ refs_state 3 H1 ltac:(discriminate) H2).
Defined.

(** With no section whose lowercased title contains [reference], the
    same loop appends exactly one section [refs-auto] titled [References]
    holding the references joined by line feeds; all other sections are
    kept as they are. *)
Theorem handleAddReference_creates (to_lower : jstr -> jstr) (refs : list jstr) (st : AppState) :
  Forall (fun r => r <> [] /\ trim r = r) refs -> refs <> [] ->
  find_index (fun s => includes (to_lower (title s)) (str "reference")) (app_sections st)
    = None ->
  includes (to_lower (str "References")) (str "reference") = true ->
  app_sections (fold_left (fun acc r => handleAddReference to_lower r acc) refs st)
  = app_sections st ++ [mk_section (str "refs-auto") (str "References") (join [LF] refs)].
Proof.
  intros Hok Hne Hf Hl. rewrite fold_handleAddReference.
  destruct refs as [|r rest]; [contradiction|].
  inversion Hok as [|? ? [Hn Ht] Hrest]; subst.
  set (secs := app_sections st).
  cbn [fold_left].
  assert (E1 : add_reference to_lower r secs
               = secs ++ [mk_section (str "refs-auto") (str "References") r]).
  { unfold add_reference. fold (reference_title to_lower). unfold secs.
    unfold reference_title. rewrite Hf. cbv zeta iota beta.
    rewrite app_nth2, Nat.sub_diag by lia. simpl. apply list_set_last. }
  rewrite E1.
  assert (Hf1 : find_index (reference_title to_lower)
                  (secs ++ [mk_section (str "refs-auto") (str "References") r])
                = Some (length secs))
    by (apply find_index_last; [exact Hf | exact Hl]).
  rewrite (fold_add_found to_lower rest _ _ Hrest Hf1).
  destruct rest as [|y rest']; [reflexivity|].
  rewrite app_nth2, Nat.sub_diag by lia. cbn [nth content with_content].
  rewrite Ht. rewrite join_lead by exact Hn.
  rewrite list_set_last. reflexivity.
Qed.

Lemma handleAddReference_creates_witness :
  Forall (fun r => r <> [] /\ trim r = r) [str "Doe 2020."]
  /\ find_index (fun s => includes (ascii_lower (title s)) (str "reference"))
       (app_sections norefs_state) = None
  /\ includes (ascii_lower (str "References")) (str "reference") = true
  /\ app_sections (fold_left (fun acc r => handleAddReference ascii_lower r acc)
                    [str "Doe 2020."] norefs_state)
     = app_sections norefs_state
       ++ [mk_section (str "refs-auto") (str "References") (join [LF] [str "Doe 2020."])].
Proof.
  assert (H1 : Forall (fun r => r <> [] /\ trim r = r) [str "Doe 2020."])
    by (repeat constructor; try discriminate; vm_compute; reflexivity).
  assert (H2 : find_index (fun s => includes (ascii_lower (title s)) (str "reference"))
                 (app_sections norefs_state) = None) by (vm_compute; reflexivity).
  assert (H3 : includes (ascii_lower (str "References")) (str "reference") = true)
    by (vm_compute; reflexivity).
  split; [exact H1|]. split; [exact H2|]. split; [exact H3|].
  exact (handleAddReference_creates ascii_lower _ norefs_state H1 ltac:(discriminate) H2 H3).
Defined.

Lemma select_in_section (st : AppState) (pre post : list PaperSection) (s : PaperSection)
    (start end_ : nat) :
  app_sections st = pre ++ s :: post -> ~ In (id s) (map id pre) -> id s <> [] ->
  start < end_ <= length (content s) ->
  2 <= nonws_count (firstn (end_ - start) (skipn start (content s))) ->
  handleSelect start end_ (Some (id s)) st =
  Some (mk_app (app_sections st) (activeSectionId st) (isFullDocMode st)
          (analysisResult st) (previewingIssue st)
          (Some (mk_selection (firstn (end_ - start) (skipn start (content s)))
                   start end_ (Some (id s)))) true).
Proof.
  intros Hs Hpre Hid [H1 H2] Hcount.
  assert (Hsub : js_substring (content s) start end_
                 = firstn (end_ - start) (skipn start (content s)))
    by (apply js_substring_mid; lia).
  assert (Hne : Nat.eqb start end_ = false) by (apply Nat.eqb_neq; lia).
  assert (Hlt : Nat.ltb 1 (length (trim (firstn (end_ - start) (skipn start (content s))))) = true)
    by (apply Nat.ltb_lt, trim_length_gt1, Hcount).
  assert (Hor : js_or (content s) [] = content s) by (destruct (content s); reflexivity).
  destruct (id s) as [|i0 ir] eqn:Eid; [contradiction|].
  unfold handleSelect. rewrite Hne. simpl negb. cbv iota beta.
  assert (Hfind : find (fun t => jstr_eqb (id t) (i0 :: ir)) (app_sections st) = Some s)
    by (rewrite Hs; exact (find_first_id pre post s (i0 :: ir) Hpre Eid)).
  rewrite Hfind, Hor, Hsub, Hlt. reflexivity.
Qed.

Lemma cite_in_section (clock : nat -> jstr) (st : AppState) (sel : Selection)
    (pre post : list PaperSection) (s : PaperSection) (marker : jstr) :
  selection st = Some sel -> sel_sectionId sel = Some (id s) -> id s <> [] ->
  app_sections st = pre ++ s :: post ->
  ~ In (id s) (map id pre) -> ~ In (id s) (map id post) ->
  handleCiteAtSelection clock marker st =
  (set_sections (pre ++ with_content s (splice_at (content s) (sel_start sel) (sel_end sel)
                                          (sel_text sel ++ str " " ++ marker)) :: post) st,
   false).
Proof.
  intros Hsel Hsid Hid Hs Hpre Hpost.
  destruct (id s) as [|i0 ir] eqn:Eid; [contradiction|].
  unfold handleCiteAtSelection, updateDocumentAtSelection. rewrite Hsel, Hsid.
  cbn [falsy]. rewrite andb_false_r. unfold splice_in_section.
  rewrite Hs, map_app. simpl. rewrite Eid, jstr_eqb_refl.
  rewrite (map_id_absent _ pre), (map_id_absent _ post) by assumption.
  reflexivity.
Qed.

(** The selection is kept after a citation, so citing twice without
    selecting again inserts [" " + marker] twice at the end of the
    originally selected range. *)
Theorem handleSelect_then_cite_twice (clock : nat -> jstr) (st : AppState)
    (pre post : list PaperSection) (s : PaperSection) (start end_ : nat) (marker : jstr) :
  app_sections st = pre ++ s :: post ->
  ~ In (id s) (map id pre) -> ~ In (id s) (map id post) -> id s <> [] ->
  start < end_ <= length (content s) ->
  2 <= nonws_count (firstn (end_ - start) (skipn start (content s))) ->
  exists st1,
    handleSelect start end_ (Some (id s)) st = Some st1
    /\ app_sections (fst (handleCiteAtSelection clock marker
                           (fst (handleCiteAtSelection clock marker st1))))
       = pre ++ with_content s (firstn end_ (content s) ++ (str " " ++ marker)
                                ++ (str " " ++ marker) ++ skipn end_ (content s)) :: post.
Proof.
  intros Hs Hpre Hpost Hid [H1 H2] Hcount.
  rewrite (select_in_section st pre post s start end_ Hs Hpre Hid (conj H1 H2) Hcount).
  eexists. split; [reflexivity|].
  set (t := firstn (end_ - start) (skipn start (content s))).
  set (S := str " " ++ marker).
  set (st1 := mk_app (app_sections st) (activeSectionId st) (isFullDocMode st)
                (analysisResult st) (previewingIssue st)
                (Some (mk_selection t start end_ (Some (id s)))) true).
  rewrite (cite_in_section clock st1 (mk_selection t start end_ (Some (id s))) pre post s marker
             eq_refl eq_refl Hid Hs Hpre Hpost).
  cbn [fst sel_start sel_end sel_text]. fold S.
  assert (Hc1 : splice_at (content s) start end_ (t ++ S)
                = firstn end_ (content s) ++ S ++ skipn end_ (content s)).
  { unfold splice_at.
    rewrite js_substring_prefix by lia. rewrite js_substring_from_suffix by lia.
    unfold t. rewrite app_assoc, app_assoc, firstn_join by lia.
    rewrite <- app_assoc. reflexivity. }
  rewrite Hc1.
  set (c1 := firstn end_ (content s) ++ S ++ skipn end_ (content s)).
  set (s1 := with_content s c1).
  assert (L : length (firstn end_ (content s)) = end_) by (rewrite length_firstn; lia).
  rewrite (cite_in_section clock (set_sections (pre ++ s1 :: post) st1)
             (mk_selection t start end_ (Some (id s))) pre post s1 marker
             eq_refl eq_refl Hid eq_refl Hpre Hpost).
  cbn [fst app_sections set_sections sel_start sel_end sel_text]. fold S.
  assert (Lc1 : end_ <= length c1)
    by (unfold c1; rewrite !length_app; lia).
  unfold s1. cbn [content with_content]. f_equal. f_equal.
  unfold splice_at.
  rewrite js_substring_prefix by lia. rewrite js_substring_from_suffix by lia.
  unfold c1.
  rewrite firstn_app, L, (proj2 (Nat.sub_0_le start end_)) by lia.
  rewrite firstn_firstn, Nat.min_l by lia. simpl firstn. rewrite app_nil_r.
  rewrite skipn_app, L, Nat.sub_diag. rewrite (skipn_all2 (firstn end_ (content s))) by (rewrite L; lia). cbn [app skipn].
  unfold t. rewrite <- !app_assoc. rewrite (app_assoc (firstn start (content s))), firstn_join by lia.
  reflexivity.
Qed.

Lemma handleSelect_then_cite_twice_witness :
  exists st1,
    handleSelect 0 12 (Some (str "intro")) select_state = Some st1
    /\ app_sections (fst (handleCiteAtSelection (fun _ => []) (str "[1]")
                           (fst (handleCiteAtSelection (fun _ => []) (str "[1]") st1))))
       = [nth 0 INITIAL_SECTIONS (mk_section [] [] [])]
         ++ with_content (nth 1 INITIAL_SECTIONS (mk_section [] [] []))
              (firstn 12 (content (nth 1 INITIAL_SECTIONS (mk_section [] [] [])))
               ++ (str " " ++ str "[1]") ++ (str " " ++ str "[1]")
               ++ skipn 12 (content (nth 1 INITIAL_SECTIONS (mk_section [] [] []))))
         :: skipn 2 INITIAL_SECTIONS.
Proof.
  apply (handleSelect_then_cite_twice (fun _ => []) select_state
           [nth 0 INITIAL_SECTIONS (mk_section [] [] [])]
           (skipn 2 INITIAL_SECTIONS)
           (nth 1 INITIAL_SECTIONS (mk_section [] [] [])) 0 12 (str "[1]")).
  - reflexivity.
  - simpl. intros [E|[]]. discriminate E.
  - simpl. intros [E|[E|[]]]; discriminate E.
  - discriminate.
  - split; [lia | vm_compute; lia].
  - vm_compute. lia.
Defined.

(** In the single-section view with a dangling active identifier,
    [handleSelect] reads the selection from [sections[0]], yet the citation
    raises no alert and changes nothing. *)
Theorem handleSelect_dangling_cite (clock : nat -> jstr) (st st1 : AppState)
    (start end_ : nat) (marker : jstr) :
  isFullDocMode st = false ->
  ~ In (activeSectionId st) (map id (app_sections st)) ->
  handleSelect start end_ None st = Some st1 ->
  showMicroEditTooltip st1 = true ->
  (exists s0 rest, app_sections st = s0 :: rest
     /\ selection st1 = Some (mk_selection (js_substring (content s0) start end_)
                                start end_ None))
  /\ handleCiteAtSelection clock marker st1 = (st1, false).
Proof.
  intros Hf Hd Hsel Ht.
  assert (Hact : activeSection st = hd_error (app_sections st))
    by (unfold activeSection; rewrite find_id_absent by exact Hd; reflexivity).
  unfold handleSelect in Hsel.
  destruct (Nat.eqb start end_); simpl negb in Hsel; cbv iota in Hsel.
  - destruct (showMicroEditTooltip st) eqn:Et; injection Hsel as <-; simpl in Ht; congruence.
  - rewrite Hf, Hact in Hsel.
    destruct (app_sections st) as [|s0 rest] eqn:Es; [discriminate|].
    cbn [hd_error option_map] in Hsel.
    destruct (Nat.ltb 1 (length (trim (js_substring (content s0) start end_))));
      injection Hsel as <-; [|discriminate Ht].
    split; [exists s0, rest; split; reflexivity|].
    unfold handleCiteAtSelection, updateDocumentAtSelection. cbn [selection sel_sectionId].
    cbn [andb isFullDocMode app_sections activeSectionId].
    unfold splice_in_section.
    rewrite (map_id_absent _ (s0 :: rest)) by exact Hd. reflexivity.
Qed.

Lemma handleSelect_dangling_cite_witness :
  exists st1,
    isFullDocMode stale_state = false
    /\ ~ In (activeSectionId stale_state) (map id (app_sections stale_state))
    /\ handleSelect 0 12 None stale_state = Some st1
    /\ showMicroEditTooltip st1 = true
    /\ (exists s0 rest, app_sections stale_state = s0 :: rest
          /\ selection st1 = Some (mk_selection (js_substring (content s0) 0 12) 0 12 None))
    /\ handleCiteAtSelection (fun _ => []) (str "[1]") st1 = (st1, false).
Proof.
  assert (H1 : isFullDocMode stale_state = false) by reflexivity.
  assert (H2 : ~ In (activeSectionId stale_state) (map id (app_sections stale_state))).
  { vm_compute. intros [E|[E|[E|[E|[]]]]]; discriminate E. }
  assert (H3 : handleSelect 0 12 None stale_state =
               Some (mk_app INITIAL_SECTIONS (section_id (fun _ => []) 0) false None None
                       (Some (mk_selection (str "Artificial I") 0 12 None)) true))
    by (vm_compute; reflexivity).
  assert (H4 : showMicroEditTooltip
                 (mk_app INITIAL_SECTIONS (section_id (fun _ => []) 0) false None None
                    (Some (mk_selection (str "Artificial I") 0 12 None)) true) = true)
    by reflexivity.
  eexists. split; [exact H1|]. split; [exact H2|]. split; [exact H3|]. split; [exact H4|].
  exact (handleSelect_dangling_cite (fun _ => []) stale_state _ 0 12 (str "[1]") H1 H2 H3 H4).
Defined.
